(** * Identity resolution, retailer matching and price-history merging

    A shallow embedding of the client-side core of the price tracker
    (PriceComparison component): the deduplication key of a listing
    ([getProductIdentityKey]) and the dedup loop of [handleSearchPreview],
    the two matching strategies of [handleVariantSelected], and the
    date-aligned forward-filled merge of [fetchGroupPriceHistory].

    Strings: a JavaScript string is a sequence of UTF-16 code units.  The
    embedding covers the code units U+0000..U+00FF, read as the bytes of a
    Rocq [string]; on this range [toLowerCase], [trim], [\s] and [\d] are
    written out below exactly as ECMAScript defines them. *)

From Stdlib Require Import Ascii String QArith.
From stdpp Require Import gmap strings sorting list pretty.

Local Open Scope string_scope.
Local Open Scope list_scope.

(** ** JavaScript string primitives *)

Module Js.

Definition code (c : ascii) : N := N_of_ascii c.

(** [\s] and the characters removed by [trim]: TAB, LF, VT, FF, CR, SPACE
    and NO-BREAK SPACE are the only ones below U+0100. *)
Definition isWhiteSpace (c : ascii) : bool :=
  let n := code c in
  ((9 <=? n) && (n <=? 13) || (n =? 32) || (n =? 160))%N.

(** [\d] *)
Definition isDigit (c : ascii) : bool :=
  let n := code c in ((48 <=? n) && (n <=? 57))%N.

(** Lower-casing of one code unit: A-Z, and the Latin-1 capitals
    U+00C0..U+00DE except the multiplication sign U+00D7. *)
Definition toLowerChar (c : ascii) : ascii :=
  let n := code c in
  if ((65 <=? n) && (n <=? 90) || (192 <=? n) && (n <=? 214)
      || (216 <=? n) && (n <=? 222))%N
  then ascii_of_N (n + 32) else c.

Fixpoint toLowerCase (s : string) : string :=
  match s with
  | EmptyString => EmptyString
  | String c s' => String (toLowerChar c) (toLowerCase s')
  end.

Fixpoint trimStart (s : string) : string :=
  match s with
  | EmptyString => EmptyString
  | String c s' => if isWhiteSpace c then trimStart s' else s
  end.

Fixpoint trimEnd (s : string) : string :=
  match s with
  | EmptyString => EmptyString
  | String c s' =>
      match trimEnd s' with
      | EmptyString => if isWhiteSpace c then EmptyString else String c EmptyString
      | r => String c r
      end
  end.

Definition trim (s : string) : string := trimEnd (trimStart s).

(** Truthiness of a string value: every string but the empty one. *)
Definition truthy (s : string) : bool :=
  match s with EmptyString => false | _ => true end.

(** [s.replace(/[...]/g, '')] for a character class [cls]. *)
Fixpoint removeAll (cls : ascii → bool) (s : string) : string :=
  match s with
  | EmptyString => EmptyString
  | String c s' => if cls c then removeAll cls s' else String c (removeAll cls s')
  end.

Definition startsWith (cls : ascii → bool) (s : string) : bool :=
  match s with EmptyString => false | String c _ => cls c end.

(** [s.split(/[...]+/)] for a character class [cls]: the separators are
    the maximal runs of class characters; a run at the very start or the
    very end leaves an empty first or last field, and the empty string
    splits into one empty field. *)
Fixpoint split (cls : ascii → bool) (s : string) : list string :=
  match s with
  | EmptyString => [EmptyString]
  | String c s' =>
      if cls c then
        if startsWith cls s' then split cls s' else EmptyString :: split cls s'
      else
        match split cls s' with
        | w :: ws => String c w :: ws
        | [] => [String c EmptyString]
        end
  end.

(** [s.split(c)[0]] for a one-character separator: the text before the
    first occurrence of [c], the whole string when there is none. *)
Fixpoint before (c : ascii) (s : string) : string :=
  match s with
  | EmptyString => EmptyString
  | String x s' => if Ascii.eqb x c then EmptyString else String x (before c s')
  end.

(** [arr.join(sep)] *)
Fixpoint join (sep : string) (ws : list string) : string :=
  match ws with
  | [] => EmptyString
  | [w] => w
  | w :: ws' => w +:+ sep +:+ join sep ws'
  end.

(** [arr.includes(w)] *)
Definition includes (ws : list string) (w : string) : bool :=
  bool_decide (w ∈ ws).

(** [arr.sort()] on an array of strings: ascending by code units. *)
Definition sort (ws : list string) : list string := merge_sort String.le ws.

(** The longest prefix of [s] in the class, and what follows it: how a
    greedy [c+] or [c*] consumes input. *)
Fixpoint span (cls : ascii → bool) (s : string) : string * string :=
  match s with
  | EmptyString => (EmptyString, EmptyString)
  | String c s' =>
      if cls c then let '(p, r) := span cls s' in (String c p, r)
      else (EmptyString, s)
  end.

Definition occurs (c : ascii) (s : string) : bool :=
  existsb (Ascii.eqb c) (list_ascii_of_string s).

End Js.

(** ** Listings *)

Record RawListing := {
  retailer : string;
  name : string;
  brand : option string;
  model : option string;
  price : Q;
  url : string
}.

(** [product.model && product.model.trim()], and in the matcher
    [variant.model && variant.model.trim() !== '']: a model code is present
    when the field is neither null nor blank. *)
Definition hasModel (product : RawListing) : bool :=
  match model product with
  | Some m => Js.truthy m && Js.truthy (Js.trim m)
  | None => false
  end.

(** ** Identity Resolver ([handleSearchPreview]) *)

Module IdentityResolver.

Definition TIER_WORDS : list string :=
  ["pro"; "max"; "plus"; "ultra"; "mini"; "lite"; "se"; "air"].

Definition COLOR_WORDS : list string :=
  ["black"; "white"; "silver"; "gold"; "grey"; "gray"; "blue"; "red";
   "green"; "pink"; "purple"; "midnight"; "starlight"; "titanium";
   "graphite"; "space"].

Definition FILLER_WORDS : list string :=
  ["the"; "and"; "with"; "for"; "in"; "new"; "nz"; "wifi"; "wi-fi"].

(** The class [[\s\-\/,]] of the name tokenizer. *)
Definition isNameSeparator (c : ascii) : bool :=
  Js.isWhiteSpace c || Ascii.eqb c "-" || Ascii.eqb c "/" || Ascii.eqb c ",".

(** [[gt]] and [b] under the [i] flag. *)
Definition isGT (c : ascii) : bool :=
  Ascii.eqb c "g" || Ascii.eqb c "G" || Ascii.eqb c "t" || Ascii.eqb c "T".
Definition isB (c : ascii) : bool := Ascii.eqb c "b" || Ascii.eqb c "B".

(** [\d+\s*[gt]b] anchored at the start of [s]; the text matched.  Both
    quantifiers are greedy, and giving back a digit or a white-space
    character can never help, as the next atom [[gt]] accepts neither:
    the greedy attempt decides. *)
Definition storageAt (s : string) : option string :=
  let '(ds, r1) := Js.span Js.isDigit s in
  if Js.truthy ds then
    let '(ws, r2) := Js.span Js.isWhiteSpace r1 in
    match r2 with
    | String c1 (String c2 _) =>
        if isGT c1 && isB c2
        then Some (ds +:+ ws +:+ String c1 (String c2 EmptyString))
        else None
    | _ => None
    end
  else None.

(** [name.match(/(\d+\s*[gt]b)/i)]: the leftmost match. *)
Fixpoint storageMatch (s : string) : option string :=
  match storageAt s with
  | Some m => Some m
  | None =>
      match s with
      | EmptyString => None
      | String _ s' => storageMatch s'
      end
  end.

(** [/^\d+\s*[gt]b$/i.test(w)] *)
Definition isStorageWord (w : string) : bool :=
  let '(ds, r1) := Js.span Js.isDigit w in
  Js.truthy ds &&
  let '(_, r2) := Js.span Js.isWhiteSpace r1 in
  match r2 with
  | String c1 (String c2 EmptyString) => isGT c1 && isB c2
  | _ => false
  end.

Definition nameWords (product : RawListing) : list string :=
  Js.split isNameSeparator (Js.toLowerCase (name product)).

(** [words.filter(w => TIER_WORDS.includes(w))] *)
Definition tierWords (product : RawListing) : list string :=
  List.filter (Js.includes TIER_WORDS) (nameWords product).

Definition isCoreWord (w : string) : bool :=
  (1 <? String.length w)%nat &&
  negb (Js.includes COLOR_WORDS w) &&
  negb (Js.includes TIER_WORDS w) &&
  negb (Js.includes FILLER_WORDS w) &&
  negb (isStorageWord w).

Definition storagePart (product : RawListing) : string :=
  match storageMatch (Js.toLowerCase (name product)) with
  | Some m => Js.removeAll Js.isWhiteSpace m
  | None => EmptyString
  end.

Definition tierPart (product : RawListing) : string :=
  Js.join "-" (Js.sort (tierWords product)).

Definition corePart (product : RawListing) : string :=
  Js.join "-" (take 4 (List.filter isCoreWord (nameWords product))).

Definition getProductIdentityKey (product : RawListing) : string :=
  if hasModel product then
    Js.trim (Js.toLowerCase (default EmptyString (model product)))
  else
    Js.join "|"
      (List.filter Js.truthy
         [corePart product; tierPart product; storagePart product]).

(** The dedup loop: [uniqueProducts] grows at its end, [seen] is the set
    of keys met so far. *)
Definition dedupStep (st : list RawListing * gset string) (product : RawListing)
  : list RawListing * gset string :=
  let key := getProductIdentityKey product in
  if bool_decide (key ∈ st.2) then st
  else (st.1 ++ [product], {[key]} ∪ st.2).

Definition resolve (products : list RawListing) : list RawListing :=
  (foldl dedupStep ([], ∅) products).1.

End IdentityResolver.

(** ** Retailer Matcher ([handleVariantSelected]) *)

Module RetailerMatcher.

Definition TIER_WORDS : gset string :=
  list_to_set ["pro"; "max"; "plus"; "ultra"; "mini"; "lite"; "se"; "air";
               "standard"; "basic"].

Definition STOP_WORDS : list string := ["the"; "and"; "with"; "for"; "in"].

(** The classes [[()]] and [[\s-]]. *)
Definition isParen (c : ascii) : bool := Ascii.eqb c "(" || Ascii.eqb c ")".
Definition isWordSeparator (c : ascii) : bool :=
  Js.isWhiteSpace c || Ascii.eqb c "-".

Definition isKeyWord (word : string) : bool :=
  (0 <? String.length word)%nat && negb (Js.includes STOP_WORDS word).

Definition extractKeyWords (name : string) : gset string :=
  list_to_set
    (List.filter isKeyWord
       (Js.split isWordSeparator (Js.removeAll isParen (Js.toLowerCase name)))).

Definition extractTierWords (name : string) : gset string :=
  list_to_set
    (List.filter (λ w, bool_decide (w ∈ TIER_WORDS))
       (Js.split isWordSeparator (Js.toLowerCase name))).

(** [Array.from(tiers).sort().join(',')] *)
Definition tierStr (tiers : gset string) : string :=
  Js.join "," (Js.sort (elements tiers)).

(** [w.length > 3 || /\d/.test(w)] *)
Definition isSignificant (w : string) : bool :=
  (3 <? String.length w)%nat || existsb Js.isDigit (list_ascii_of_string w).

(** The numbers a quotient of two set sizes can be.  A size is far below
    2^53, and for such operands the correctly rounded double quotient
    compares with the double nearest to 0.4 the way the exact quotient
    compares with 2/5; the quotient is therefore kept exact.  0/0 is NaN,
    and every comparison with NaN is false. *)
Inductive number := NaN | Infinity | Finite (q : Q).

Definition divide (a b : nat) : number :=
  match b, a with
  | O, O => NaN
  | O, _ => Infinity
  | _, _ => Finite (Z.of_nat a # Pos.of_nat b)
  end.

Definition geq (x : number) (q : Q) : bool :=
  match x with
  | NaN => false
  | Infinity => true
  | Finite v => Qle_bool q v
  end.

Definition intersection (variantKeyWords productKeyWords : gset string) : gset string :=
  list_to_set
    (List.filter (λ x, bool_decide (x ∈ productKeyWords)) (elements variantKeyWords)).

Definition similarity (variantKeyWords productKeyWords : gset string) : number :=
  divide (size (intersection variantKeyWords productKeyWords))
         (Nat.max (size variantKeyWords) (size productKeyWords)).

(** First hard filter: the sorted, comma-joined tier words agree. *)
Definition tiersAgree (variant p : RawListing) : bool :=
  String.eqb (tierStr (extractTierWords (name variant)))
             (tierStr (extractTierWords (name p))).

Definition missingWords (variantKeyWords productKeyWords : gset string) : list string :=
  List.filter (λ w, negb (bool_decide (w ∈ productKeyWords))) (elements variantKeyWords).

(** Second hard filter: no significant key word of the variant is missing. *)
Definition noSignificantMissing (variant p : RawListing) : bool :=
  let missing := missingWords (extractKeyWords (name variant)) (extractKeyWords (name p)) in
  negb ((0 <? length missing)%nat
        && (0 <? length (List.filter isSignificant missing))%nat).

(** The callback of the strategy-2 filter. *)
Definition fuzzyMatch (variant p : RawListing) : bool :=
  if negb (tiersAgree variant p) then false
  else if negb (noSignificantMissing variant p) then false
  else geq (similarity (extractKeyWords (name variant)) (extractKeyWords (name p))) (2 # 5).

(** The callback of the strategy-1 filter. *)
Definition modelMatch (variant p : RawListing) : bool :=
  if hasModel p then
    String.eqb (Js.toLowerCase (default EmptyString (model p)))
               (Js.toLowerCase (default EmptyString (model variant)))
  else false.

(** The listings [handleVariantSelected] settles on ([matchingProducts]). *)
Definition handleVariantSelected (variant : RawListing) (allProducts : list RawListing)
  : list RawListing :=
  let matchingProducts :=
    if hasModel variant then List.filter (modelMatch variant) allProducts else [] in
  if (length matchingProducts =? 0)%nat
  then List.filter (fuzzyMatch variant) allProducts
  else matchingProducts.

End RetailerMatcher.

(** ** Price History Merger ([fetchGroupPriceHistory]) *)

Module PriceHistory.

(** The objects [dateMap], [lastKnown] and the rows are used as maps from
    strings and are finite maps here: dates and retailer names are taken to
    be ordinary own keys, not names an object inherits from
    [Object.prototype].  Prices are numbers, never null; the merge copies
    them and computes nothing with them. *)

(** One stored observation, as the history endpoint returns it. *)
Record entry := { timestamp : string; price : Q }.

(** One row of the chart data: the object [{ date, [retailer]: price }].
    The retailer-keyed cells are kept apart from the [date] property;
    retailer names are shop names, none of which is the property name
    [date] itself. *)
Record row := { date : string; cells : gmap string Q }.

(** [entry.timestamp.split('T')[0].split(' ')[0]] *)
Definition dateOf (ts : string) : string := Js.before " " (Js.before "T" ts).

Definition placeEntry (retailer : string) (dateMap : gmap string row) (e : entry)
  : gmap string row :=
  let d := dateOf (timestamp e) in
  let r := default {| date := d; cells := ∅ |} (dateMap !! d) in
  <[d := {| date := date r; cells := <[retailer := price e]> (cells r) |}]> dateMap.

Definition placeHistory (dateMap : gmap string row) (h : string * list entry)
  : gmap string row :=
  foldl (placeEntry h.1) dateMap h.2.

Definition buildDateMap (allHistory : list (string * list entry)) : gmap string row :=
  foldl placeHistory ∅ allHistory.

(** The order of [a.date.localeCompare(b.date)]: on dates written
    YYYY-MM-DD (digits and hyphens) collation is the order of the code
    units, which is [String.le]. *)
Definition dateLe (a b : row) : Prop := String.le (date a) (date b).

Global Instance dateLe_dec : RelDecision dateLe.
Proof. intros a b. unfold dateLe. apply _. Defined.

(** [Object.values(dateMap).sort(...)].  The rows have pairwise different
    dates, so the sorted array does not depend on the order in which
    [Object.values] lists them. *)
Definition sorted (dateMap : gmap string row) : list row :=
  merge_sort dateLe (map_to_list dateMap).*2.

(** One turn of the inner loop over [retailers]. *)
Definition fillCell (st : gmap string Q * row) (retailer : string)
  : gmap string Q * row :=
  let '(lastKnown, r) := st in
  match cells r !! retailer with
  | Some p => (<[retailer := p]> lastKnown, r)
  | None =>
      match lastKnown !! retailer with
      | Some p => (lastKnown, {| date := date r; cells := <[retailer := p]> (cells r) |})
      | None => (lastKnown, r)
      end
  end.

(** The outer loop over the sorted rows, [lastKnown] carried along. *)
Fixpoint fillForward (retailers : list string) (lastKnown : gmap string Q)
    (rows : list row) : list row :=
  match rows with
  | [] => []
  | r :: rest =>
      let st := foldl fillCell (lastKnown, r) retailers in
      st.2 :: fillForward retailers st.1 rest
  end.

(** The chart data handed to [setPriceHistory]; [allHistory] pairs each
    product's retailer with its fetched history, in product order. *)
Definition merge (allHistory : list (string * list entry)) : list row :=
  fillForward allHistory.*1 ∅ (sorted (buildDateMap allHistory)).

End PriceHistory.

(** ** Notions the statements below are phrased with *)

Import IdentityResolver.

(** What the dedup loop keeps of [l] when the keys in [seen] have been met
    already. *)
Fixpoint keepFirst (seen : gset string) (l : list RawListing) : list RawListing :=
  match l with
  | [] => []
  | p :: rest =>
      if bool_decide (getProductIdentityKey p ∈ seen) then keepFirst seen rest
      else p :: keepFirst ({[getProductIdentityKey p]} ∪ seen) rest
  end.

(** [v] stands in [l] at a position before which its key does not occur. *)
Definition firstWithKey (v : RawListing) (l : list RawListing) : Prop :=
  ∃ pre post, l = pre ++ v :: post
    ∧ ∀ x, x ∈ pre → getProductIdentityKey x ≠ getProductIdentityKey v.

(** A listing for the examples: retailer, name and model code. *)
Definition mk (r n : string) (m : option string) : RawListing :=
  {| retailer := r; name := n; brand := None; model := m; price := 0; url := "" |}.

(** Every character of [s] is in the class. *)
Definition allIn (cls : ascii → bool) (s : string) : bool :=
  forallb cls (list_ascii_of_string s).

Import PriceHistory.

(** The observations of [allHistory] in the order the placement loops meet
    them: retailer, calendar date, price. *)
Fixpoint observations (allHistory : list (string * list entry))
  : list (string * string * Q) :=
  match allHistory with
  | [] => []
  | h :: rest =>
      ((λ e, (h.1, dateOf (timestamp e), PriceHistory.price e)) <$> h.2)
      ++ observations rest
  end.

(** The first option when it holds a value, the second otherwise. *)
Definition orElse {A} (a b : option A) : option A :=
  match a with Some _ => a | None => b end.

(** The price observed for [retailer] on date [d]: when several
    observations share the date, the one met last. *)
Fixpoint observedIn (obs : list (string * string * Q)) (retailer d : string)
  : option Q :=
  match obs with
  | [] => None
  | (r', d', p) :: rest =>
      orElse (observedIn rest retailer d)
             (if bool_decide (retailer = r' ∧ d = d') then Some p else None)
  end.

Definition observed (allHistory : list (string * list entry)) (retailer d : string)
  : option Q :=
  observedIn (observations allHistory) retailer d.

(** The calendar dates on which anything was observed. *)
Definition observationDates (allHistory : list (string * list entry)) : list string :=
  (λ o, o.1.2) <$> observations allHistory.

(** No gaps: every retailer has an observation on every observation date. *)
Definition dense (allHistory : list (string * list entry)) : Prop :=
  ∀ retailer d, retailer ∈ allHistory.*1 → d ∈ observationDates allHistory →
                is_Some (observed allHistory retailer d).

(** [d1] is a strictly earlier date than [d2]. *)
Definition earlier (d1 d2 : string) : Prop := String.le d1 d2 ∧ d1 ≠ d2.

(** Rows in strictly ascending date order. *)
Definition ascending (rows : list row) : Prop :=
  StronglySorted (λ a b, earlier (date a) (date b)) rows.

(** One placement, by retailer, date and price. *)
Definition placeObs (dateMap : gmap string row) (o : string * string * Q)
  : gmap string row :=
  let '(retailer, d, p) := o in
  let r := default {| date := d; cells := ∅ |} (dateMap !! d) in
  <[d := {| date := date r; cells := <[retailer := p]> (cells r) |}]> dateMap.

(** Every row of the table is filed under its own date. *)
Definition keyed (dateMap : gmap string row) : Prop :=
  ∀ d r, dateMap !! d = Some r → date r = d.

(** The cell of [retailer] in the row of date [d]. *)
Definition cellAt (dateMap : gmap string row) (retailer d : string) : option Q :=
  dateMap !! d ≫= λ r, cells r !! retailer.

(** [lastKnown] after the fill loop went through [rows]. *)
Definition carry (retailers : list string) (lastKnown : gmap string Q)
    (rows : list row) : gmap string Q :=
  foldl (λ lk r, (foldl fillCell (lk, r) retailers).1) lastKnown rows.

(** The latest cell of [retailer] in [rows], [init] when there is none. *)
Definition lastSeen (retailer : string) (init : option Q) (rows : list row)
  : option Q :=
  foldl (λ acc r, orElse (cells r !! retailer) acc) init rows.

(** The merged rows read back as one history per retailer: an entry for
    every row in which the retailer has a cell, stamped with the row's
    date. *)
Definition historyOf (rows : list row) (retailer : string) : list entry :=
  omap (λ r, (λ p, {| timestamp := date r; PriceHistory.price := p |})
               <$> cells r !! retailer) rows.

Definition historiesOf (retailers : list string) (rows : list row)
  : list (string * list entry) :=
  (λ x, (x, historyOf rows x)) <$> retailers.

Definition obs (t : string) (p : Q) : entry :=
  {| timestamp := t; PriceHistory.price := p |}.

(** Two histories for the examples: one with gaps (A is seen on the 1st
    and the 3rd, B on the 2nd), one without. *)
Definition gappyHistory : list (string * list entry) :=
  [("A", [obs "2024-01-01T10:00:00" 100; obs "2024-01-03 11:30:00" 110]);
   ("B", [obs "2024-01-02T09:15:00" 90])].

Definition denseHistory : list (string * list entry) :=
  [("A", [obs "2024-01-01T10:00:00" 100; obs "2024-01-02T10:00:00" 105]);
   ("B", [obs "2024-01-02 09:15:00" 90; obs "2024-01-01 09:15:00" 95])].

(** ** Retailer selection ([toggleProductSelection]) *)

(** [selectedProducts] holds positions in the result list. *)
Definition toggleProductSelection (prev : list nat) (index : nat) : list nat :=
  if bool_decide (index ∈ prev)
  then List.filter (λ i, negb (i =? index)%nat) prev
  else prev ++ [index].

(** ** Search progress ([handleSearchPreview], the interval callback) *)

Module SearchProgress.








End SearchProgress.

(** ** The backend log of the desktop shell ([log], [waitForFlask]) *)

Module Electron.

(** [backendLogs] after [log(msg)]: the message is pushed, and the oldest
    line dropped once there are more than 50. *)
Definition log (backendLogs : list string) (msg : string) : list string :=
  let pushed := backendLogs ++ [msg] in
  if (50 <? length pushed)%nat then tail pushed else pushed.

Definition waitingMessage (attempt maxRetries : nat) : string :=
  "[Electron] Waiting for Flask... (" +:+ pretty attempt +:+ "/"
    +:+ pretty maxRetries +:+ ")".

(** The polling loop from attempt [i] on, [remaining] attempts left.
    [health i] tells whether the health request of attempt [i] came back
    with [response.ok]; a request that fails or throws counts as not ok.
    The one-second pause between attempts is not modelled. *)
Fixpoint waitFrom (health : nat → bool) (maxRetries i remaining : nat)
    (backendLogs : list string) : bool * list string :=
  match remaining with
  | O => (false, backendLogs)
  | S remaining' =>
      if health i then (true, log backendLogs "[Electron] Flask is ready")
      else waitFrom health maxRetries (S i) remaining'
             (log backendLogs (waitingMessage (S i) maxRetries))
  end.

Definition waitForFlask (health : nat → bool) (maxRetries : nat)
    (backendLogs : list string) : bool * list string :=
  waitFrom health maxRetries 0 maxRetries backendLogs.

End Electron.

(** ** The product filter of the sample tracker ([filterProducts]) *)

Module Tracker.

(** [s.startsWith(needle)] and [s.includes(needle)] *)
Fixpoint startsWithStr (needle s : string) : bool :=
  match needle, s with
  | EmptyString, _ => true
  | String a needle', String b s' => Ascii.eqb a b && startsWithStr needle' s'
  | String _ _, EmptyString => false
  end.

Fixpoint includesStr (s needle : string) : bool :=
  startsWithStr needle s
  || match s with
     | EmptyString => false
     | String _ s' => includesStr s' needle
     end.

Section Filter.

(** A product of the tracker; the filter reads its name and category. *)
Context {product : Type} (name category : product → string).

Definition matches (category' query : string) (p : product) : bool :=
  let matchCategory := String.eqb category' "All" || String.eqb (category p) category' in
  let matchSearch := includesStr (Js.toLowerCase (name p)) (Js.toLowerCase query) in
  matchCategory && matchSearch.

Definition filterProducts (productList : list product) (category' query : string)
  : list product :=
  List.filter (matches category' query) productList.

End Filter.

End Tracker.

(** The last [n] elements of a list. *)
Definition lastN {A} (n : nat) (l : list A) : list A := drop (length l - n) l.

(** ** The product list of the comparison view ([filteredProducts]) *)

Section FilteredProducts.

(** A stored product; the filter reads its name and category, either of
    which the backend may leave out. *)
Context {product : Type} (name category : product → option string).

(** [p.name?.toLowerCase().includes(...)] is undefined, hence false in the
    conjunction, for a product without name. *)
Definition matchesProduct (selectedCategory searchQuery : string) (p : product) : bool :=
  let matchCategory :=
    String.eqb selectedCategory "All"
    || bool_decide (category p = Some selectedCategory) in
  let matchSearch :=
    match name p with
    | Some n => Tracker.includesStr (Js.toLowerCase n) (Js.toLowerCase searchQuery)
    | None => false
    end in
  matchCategory && matchSearch.

Definition filteredProducts (products : list product)
    (selectedCategory searchQuery : string) : list product :=
  List.filter (matchesProduct selectedCategory searchQuery) products.

End FilteredProducts.

(** ** Further notions *)

(** A word that cannot take part in a storage match begun before it. *)
Definition inertWord (w : string) : bool :=
  negb (Js.startsWith Js.isWhiteSpace w)
  && negb (match w with
           | String c1 (String c2 _) => isGT c1 && isB c2
           | _ => false
           end)
  && bool_decide (storageMatch w = None).

(** A word one can put between separators and get back. *)
Definition plainWord (cls : ascii → bool) (w : string) : Prop :=
  w ≠ "" ∧ allIn (λ x, negb (cls x)) w = true.

(** The class [[,]]. *)
Definition isComma (c : ascii) : bool := Ascii.eqb c ",".


(** The three kinds of key part. *)
Definition coreKind (x : string) : Prop :=
  ∃ cs, cs ≠ [] ∧ x = Js.join "-" cs
        ∧ Forall (λ w, plainWord (λ x, Ascii.eqb x "-") w ∧ isCoreWord w = true) cs.

Definition tierKind (x : string) : Prop :=
  ∃ ts, ts ≠ [] ∧ x = Js.join "-" ts
        ∧ Forall (λ w, plainWord (λ x, Ascii.eqb x "-") w
                       ∧ Js.includes TIER_WORDS w = true) ts.

Definition storageKind (x : string) : Prop :=
  ∃ ds, ds ≠ "" ∧ allIn Js.isDigit ds = true ∧ (x = ds +:+ "gb" ∨ x = ds +:+ "tb").


(** * Identity Resolver: proofs *)

Section Resolver.

Implicit Types (p v : RawListing) (l : list RawListing) (seen : gset string).

Lemma trim_empty_string : Js.trim "" = "".
Proof. reflexivity. Qed.

Lemma hasModel_intro p m :
  model p = Some m → Js.trim m ≠ "" → hasModel p = true.
Proof.
  intros Hm Ht. unfold hasModel. rewrite Hm.
  destruct m as [|c m]; [by destruct Ht|].
  destruct (Js.trim (String c m)) eqn:E; [by destruct Ht|done].
Qed.

Lemma dedup_loop_keepFirst l : ∀ acc seen,
  (foldl dedupStep (acc, seen) l).1 = acc ++ keepFirst seen l.
Proof.
  induction l as [|p l IH]; intros acc seen; simpl.
  - by rewrite app_nil_r.
  - unfold dedupStep at 2; simpl. case_bool_decide.
    + apply IH.
    + rewrite IH. by rewrite <- app_assoc.
Qed.

Lemma resolve_keepFirst l : resolve l = keepFirst ∅ l.
Proof. unfold resolve. by rewrite dedup_loop_keepFirst. Qed.

Lemma keepFirst_fresh l : ∀ seen v,
  v ∈ keepFirst seen l → getProductIdentityKey v ∉ seen.
Proof.
  induction l as [|p l IH]; intros seen v; simpl.
  - by intros ?%elem_of_nil.
  - case_bool_decide as Hp.
    + apply IH.
    + intros [->|Hin]%elem_of_cons; [done|].
      apply IH in Hin. set_solver.
Qed.

Lemma keepFirst_NoDup l : ∀ seen,
  NoDup (getProductIdentityKey <$> keepFirst seen l).
Proof.
  induction l as [|p l IH]; intros seen; simpl.
  - constructor.
  - case_bool_decide as Hp; [apply IH|].
    rewrite fmap_cons. constructor; [|apply IH].
    intros (v & Hk & Hv)%list_elem_of_fmap.
    apply keepFirst_fresh in Hv. set_solver.
Qed.

Lemma keepFirst_sublist l : ∀ seen, keepFirst seen l `sublist_of` l.
Proof.
  induction l as [|p l IH]; intros seen; simpl.
  - constructor.
  - case_bool_decide; [apply sublist_cons, IH|apply sublist_skip, IH].
Qed.

(** A kept listing is the first of the input with its key. *)
Lemma keepFirst_first l : ∀ seen v,
  v ∈ keepFirst seen l → firstWithKey v l.
Proof.
  induction l as [|p l IH]; intros seen v; simpl.
  - by intros ?%elem_of_nil.
  - case_bool_decide as Hp.
    + intros Hv. pose proof (keepFirst_fresh _ _ _ Hv) as Hfresh.
      destruct (IH _ _ Hv) as (pre & post & -> & Hpre).
      exists (p :: pre), post. split; [done|].
      intros x [->|Hx]%elem_of_cons; [congruence|by apply Hpre].
    + intros [->|Hv]%elem_of_cons.
      * exists [], l. split; [done|]. by intros x ?%elem_of_nil.
      * pose proof (keepFirst_fresh _ _ _ Hv) as Hfresh.
        destruct (IH _ _ Hv) as (pre & post & -> & Hpre).
        exists (p :: pre), post. split; [done|].
        intros x [->|Hx]%elem_of_cons; [set_solver|by apply Hpre].
Qed.

(** Every key of the input that was not met before is kept. *)
Lemma keepFirst_covers l : ∀ seen p,
  p ∈ l → getProductIdentityKey p ∉ seen →
  ∃ v, v ∈ keepFirst seen l ∧ getProductIdentityKey v = getProductIdentityKey p.
Proof.
  induction l as [|q l IH]; intros seen p; simpl.
  - by intros ?%elem_of_nil.
  - intros [->|Hp]%elem_of_cons Hfresh.
    + rewrite bool_decide_eq_false_2 by done. exists q. split; [left|done].
    + case_bool_decide as Hq.
      * by apply IH.
      * destruct (decide (getProductIdentityKey q = getProductIdentityKey p)) as [E|NE].
        -- exists q. split; [left|done].
        -- destruct (IH ({[getProductIdentityKey q]} ∪ seen) p Hp) as (v & Hv & Hk).
           { apply not_elem_of_union. split; [|done].
             intros E%elem_of_singleton. congruence. }
           exists v. split; [by right|done].
Qed.

Lemma split_allIn cls s :
  allIn cls s = true → Forall (λ w, w = "") (Js.split cls s).
Proof.
  unfold allIn. induction s as [|c s IH]; simpl.
  - intros _. by repeat constructor.
  - intros [Hc Hs]%andb_true_iff. rewrite Hc.
    destruct (Js.startsWith cls s) eqn:E; [by apply IH|].
    constructor; [done|by apply IH].
Qed.

Lemma filter_all_false {A} (f : A → bool) (ws : list A) :
  Forall (λ w, f w = false) ws → List.filter f ws = [].
Proof.
  induction 1 as [|w ws Hw _ IH]; simpl; [done|]. by rewrite Hw.
Qed.

Lemma separator_not_digit c : isNameSeparator c = true → Js.isDigit c = false.
Proof.
  destruct c as [[] [] [] [] [] [] [] []]; vm_compute; congruence.
Qed.

Lemma storageMatch_allIn s :
  allIn isNameSeparator s = true → storageMatch s = None.
Proof.
  unfold allIn. induction s as [|c s IH]; simpl; [done|].
  intros [Hc Hs]%andb_true_iff.
  unfold storageAt. simpl. rewrite (separator_not_digit _ Hc). simpl. by apply IH.
Qed.

Lemma separator_toLowerChar c : isNameSeparator (Js.toLowerChar c) = isNameSeparator c.
Proof. by destruct c as [[] [] [] [] [] [] [] []]. Qed.

Lemma allIn_separator_toLowerCase s :
  allIn isNameSeparator (Js.toLowerCase s) = allIn isNameSeparator s.
Proof.
  unfold allIn. induction s as [|c s IH]; [done|]. simpl.
  by rewrite separator_toLowerChar, IH.
Qed.

(** A name made of separators only has the empty key. *)
Lemma empty_tokens_empty_key p :
  hasModel p = false → allIn isNameSeparator (name p) = true →
  getProductIdentityKey p = "".
Proof.
  intros Hm Hsep. rewrite <- allIn_separator_toLowerCase in Hsep.
  unfold getProductIdentityKey. rewrite Hm.
  pose proof (split_allIn _ _ Hsep) as Hw.
  unfold corePart, tierPart, storagePart, tierWords, nameWords.
  rewrite storageMatch_allIn by done.
  rewrite (filter_all_false isCoreWord), (filter_all_false (Js.includes TIER_WORDS));
    [done|..]; (eapply Forall_impl; [exact Hw|]); by intros w ->.
Qed.

End Resolver.

(** C4. A listing whose model field is not blank has the model code,
    lower-cased and trimmed, as its identity key, whatever its name; so any
    other listing carrying the same model field gets the same key. *)
Theorem model_code_is_identity_key (p : RawListing) (m : string) :
  model p = Some m → Js.trim m ≠ "" →
  getProductIdentityKey p = Js.trim (Js.toLowerCase m)
  ∧ ∀ q, model q = Some m → getProductIdentityKey q = getProductIdentityKey p.
Proof.
  intros Hm Ht.
  assert (∀ q, model q = Some m →
               getProductIdentityKey q = Js.trim (Js.toLowerCase m)) as Hkey.
  { intros q Hq. unfold getProductIdentityKey.
    rewrite (hasModel_intro q m Hq Ht). by rewrite Hq. }
  split; [by apply Hkey|].
  intros q Hq. by rewrite !Hkey.
Qed.

Lemma model_code_is_identity_key_witness :
  getProductIdentityKey (mk "A" "Widget Pro 256GB" (Some " WP-256/NZ ")) = "wp-256/nz"
  ∧ ∀ q, model q = Some " WP-256/NZ " →
         getProductIdentityKey q
         = getProductIdentityKey (mk "A" "Widget Pro 256GB" (Some " WP-256/NZ ")).
Proof.
  apply (model_code_is_identity_key
           (mk "A" "Widget Pro 256GB" (Some " WP-256/NZ ")) " WP-256/NZ ").
  - reflexivity.
  - vm_compute. discriminate.
Defined.

(** C5. [resolve] returns one variant per distinct identity key of the
    input: the keys of the result are pairwise distinct and are exactly the
    keys of the input, every variant is the earliest listing with its key,
    and the variants come in input order. *)
Theorem resolve_one_variant_per_key (listings : list RawListing) :
  NoDup (getProductIdentityKey <$> resolve listings)
  ∧ (∀ k, k ∈ getProductIdentityKey <$> resolve listings
          ↔ k ∈ getProductIdentityKey <$> listings)
  ∧ (∀ v, v ∈ resolve listings → firstWithKey v listings)
  ∧ resolve listings `sublist_of` listings.
Proof.
  rewrite resolve_keepFirst. repeat split.
  - apply keepFirst_NoDup.
  - intros (v & -> & Hv)%list_elem_of_fmap.
    apply list_elem_of_fmap_2. eapply elem_of_sublist; [exact Hv|].
    apply keepFirst_sublist.
  - intros (p & -> & Hp)%list_elem_of_fmap.
    destruct (keepFirst_covers listings ∅ p Hp) as (v & Hv & <-); [set_solver|].
    by apply list_elem_of_fmap_2.
  - apply keepFirst_first.
  - apply keepFirst_sublist.
Qed.

(** C7. No listing is lost by [resolve]: for every listing of the input the
    result holds the earliest input listing with the same key (the listing
    itself unless an earlier one collides with it).  This covers a listing
    without model code whose name is empty or made of separators only: its
    key is computed all the same, and is the empty string. *)
Theorem resolve_drops_no_listing (listings : list RawListing) (p : RawListing) :
  p ∈ listings →
  (∃ v, v ∈ resolve listings
        ∧ getProductIdentityKey v = getProductIdentityKey p
        ∧ firstWithKey v listings)
  ∧ (hasModel p = false → allIn isNameSeparator (name p) = true →
     getProductIdentityKey p = "").
Proof.
  intros Hp. split.
  - rewrite resolve_keepFirst.
    destruct (keepFirst_covers listings ∅ p Hp) as (v & Hv & Hk); [set_solver|].
    exists v. repeat split; [done..|]. by eapply keepFirst_first.
  - apply empty_tokens_empty_key.
Qed.

Lemma resolve_drops_no_listing_witness :
  (∃ v, v ∈ resolve [mk "A" "Widget" None; mk "B" " - " None; mk "C" "" None]
        ∧ getProductIdentityKey v = getProductIdentityKey (mk "C" "" None)
        ∧ firstWithKey v [mk "A" "Widget" None; mk "B" " - " None; mk "C" "" None])
  ∧ (hasModel (mk "C" "" None) = false →
     allIn isNameSeparator (name (mk "C" "" None)) = true →
     getProductIdentityKey (mk "C" "" None) = "").
Proof.
  apply (resolve_drops_no_listing
           [mk "A" "Widget" None; mk "B" " - " None; mk "C" "" None] (mk "C" "" None)).
  right. right. left.
Defined.

(** * The parts of a name-derived key *)

Section KeyParts.

Implicit Types (c : ascii) (s w : string) (ws : list string).

Lemma occurs_cons c x s :
  Js.occurs c (String x s) = Ascii.eqb c x || Js.occurs c s.
Proof. reflexivity. Qed.

Lemma occurs_app c s1 s2 :
  Js.occurs c (s1 +:+ s2) = Js.occurs c s1 || Js.occurs c s2.
Proof.
  induction s1 as [|x s1 IH]; [done|].
  change (String x s1 +:+ s2) with (String x (s1 +:+ s2)).
  rewrite !occurs_cons, IH. by rewrite orb_assoc.
Qed.

Lemma occurs_join c sep ws :
  Js.occurs c sep = false → Forall (λ w, Js.occurs c w = false) ws →
  Js.occurs c (Js.join sep ws) = false.
Proof.
  intros Hsep. induction 1 as [|w ws Hw Hws IH]; [done|].
  destruct ws as [|w' ws]; [done|].
  change (Js.join sep (w :: w' :: ws)) with (w +:+ sep +:+ Js.join sep (w' :: ws)).
  by rewrite !occurs_app, Hw, Hsep, IH.
Qed.

Lemma occurs_removeAll c cls s :
  Js.occurs c s = false → Js.occurs c (Js.removeAll cls s) = false.
Proof.
  induction s as [|x s IH]; [done|]. simpl. rewrite occurs_cons.
  intros [Hx Hs]%orb_false_iff.
  destruct (cls x); [by apply IH|]. rewrite occurs_cons, Hx. by apply IH.
Qed.

Lemma occurs_toLowerCase c s :
  (∀ x, Js.toLowerChar x = c → x = c) →
  Js.occurs c s = false → Js.occurs c (Js.toLowerCase s) = false.
Proof.
  intros Hc. induction s as [|x s IH]; [done|]. simpl. rewrite !occurs_cons.
  intros [Hx Hs]%orb_false_iff. rewrite IH by done.
  destruct (Ascii.eqb_spec c (Js.toLowerChar x)) as [E|]; [|done].
  symmetry in E. apply Hc in E. subst x. by rewrite Ascii.eqb_refl in Hx.
Qed.

(** The fields of a split are made of characters of the string. *)
Lemma occurs_split c cls s :
  Js.occurs c s = false → Forall (λ w, Js.occurs c w = false) (Js.split cls s).
Proof.
  induction s as [|x s IH]; simpl.
  - intros _. by repeat constructor.
  - rewrite occurs_cons. intros [Hx Hs]%orb_false_iff.
    specialize (IH Hs). destruct (cls x).
    + destruct (Js.startsWith cls s); [done|by constructor].
    + destruct (Js.split cls s) as [|w ws]; [by repeat constructor; rewrite occurs_cons, Hx|].
      inversion IH; subst. constructor; [|done]. by rewrite occurs_cons, Hx.
Qed.

(** The prefix taken by [span] lies in the class. *)
Lemma span_allIn cls s : allIn cls (Js.span cls s).1 = true.
Proof.
  unfold allIn. induction s as [|x s IH]; [done|]. simpl.
  destruct (cls x) eqn:E; [|done].
  destruct (Js.span cls s) as [q r]. simpl in *. by rewrite E, IH.
Qed.

Lemma allIn_occurs c cls s :
  cls c = false → allIn cls s = true → Js.occurs c s = false.
Proof.
  unfold allIn. intros Hc. induction s as [|x s IH]; [done|]. simpl.
  intros [Hx Hs]%andb_true_iff. rewrite occurs_cons, IH by done.
  destruct (Ascii.eqb_spec c x) as [->|]; [congruence|done].
Qed.

(** What the storage pattern matches holds digits, white space and the
    two unit letters only. *)
Lemma storageAt_occurs c s m :
  Js.isDigit c = false → Js.isWhiteSpace c = false →
  isGT c = false → isB c = false →
  storageAt s = Some m → Js.occurs c m = false.
Proof.
  intros Hd Hw Hg Hb. unfold storageAt.
  pose proof (span_allIn Js.isDigit s) as Hds.
  destruct (Js.span Js.isDigit s) as [ds r1]. simpl in Hds.
  destruct (Js.truthy ds); [|done].
  pose proof (span_allIn Js.isWhiteSpace r1) as Hws.
  destruct (Js.span Js.isWhiteSpace r1) as [ws r2]. simpl in Hws.
  destruct r2 as [|c1 [|c2 r3]]; [done..|].
  destruct (isGT c1 && isB c2) eqn:E; [|done].
  apply andb_true_iff in E as [E1 E2]. intros [= <-].
  rewrite !occurs_app, !occurs_cons.
  rewrite (allIn_occurs c _ ds Hd Hds), (allIn_occurs c _ ws Hw Hws). simpl.
  destruct (Ascii.eqb_spec c c1) as [->|]; [congruence|].
  destruct (Ascii.eqb_spec c c2) as [->|]; [congruence|done].
Qed.

Lemma storageMatch_occurs c s m :
  Js.isDigit c = false → Js.isWhiteSpace c = false →
  isGT c = false → isB c = false →
  storageMatch s = Some m → Js.occurs c m = false.
Proof.
  intros Hd Hw Hg Hb. induction s as [|x s IH]; simpl.
  - done.
  - destruct (storageAt (String x s)) eqn:E; [|done].
    intros [= <-]. by eapply storageAt_occurs.
Qed.

Lemma filter_Forall {A} (P : A → Prop) (f : A → bool) (l : list A) :
  Forall P l → Forall P (List.filter f l).
Proof.
  induction 1 as [|x l Hx _ IH]; simpl; [done|].
  destruct (f x); [by constructor|done].
Qed.

Lemma filter_true_Forall {A} (f : A → bool) (l : list A) :
  Forall (λ x, f x = true) (List.filter f l).
Proof.
  induction l as [|x l IH]; simpl; [done|].
  destruct (f x) eqn:E; [by constructor|done].
Qed.

Lemma sort_Forall (P : string → Prop) ws : Forall P ws → Forall P (Js.sort ws).
Proof.
  intros H. unfold Js.sort.
  by rewrite (merge_sort_Permutation String.le ws).
Qed.

Lemma tier_word_no_bar w : Js.includes TIER_WORDS w = true → Js.occurs "|" w = false.
Proof.
  unfold Js.includes. intros Hw%bool_decide_eq_true.
  unfold TIER_WORDS in Hw.
  repeat (apply elem_of_cons in Hw as [->|Hw]; [done|]).
  by apply elem_of_nil in Hw.
Qed.

Lemma toLowerChar_bar x : Js.toLowerChar x = "|"%char → x = "|"%char.
Proof. destruct x as [[] [] [] [] [] [] [] []]; vm_compute; congruence. Qed.

Lemma tierPart_no_bar p : Js.occurs "|" (tierPart p) = false.
Proof.
  unfold tierPart. apply occurs_join; [done|].
  apply sort_Forall. unfold tierWords.
  eapply Forall_impl; [apply filter_true_Forall|]. apply tier_word_no_bar.
Qed.

Lemma storagePart_no_bar p : Js.occurs "|" (storagePart p) = false.
Proof.
  unfold storagePart.
  destruct (storageMatch (Js.toLowerCase (name p))) as [m|] eqn:E; [|done].
  apply occurs_removeAll. by eapply storageMatch_occurs.
Qed.

Lemma corePart_no_bar p :
  Js.occurs "|" (name p) = false → Js.occurs "|" (corePart p) = false.
Proof.
  intros Hn. unfold corePart. apply occurs_join; [done|].
  apply Forall_take, filter_Forall. unfold nameWords.
  apply occurs_split, occurs_toLowerCase; [apply toLowerChar_bar|done].
Qed.

End KeyParts.

(** C6, as stated, fails: the tokenizer does not separate at the bar, so a
    name holding one carries it into the core part of the key. *)
Lemma core_part_may_hold_delimiter :
  hasModel (mk "A" "Hub USB|HDMI" None) = false
  ∧ corePart (mk "A" "Hub USB|HDMI" None) = "hub-usb|hdmi"
  ∧ Js.occurs "|" (corePart (mk "A" "Hub USB|HDMI" None)) = true.
Proof. by vm_compute. Qed.

(** C6, amended. For every name the tier part and the storage part of the
    key hold no bar, and the core part holds none whenever the name itself
    holds none. *)
Theorem key_parts_delimiter_free (p : RawListing) :
  Js.occurs "|" (tierPart p) = false
  ∧ Js.occurs "|" (storagePart p) = false
  ∧ (Js.occurs "|" (name p) = false → Js.occurs "|" (corePart p) = false).
Proof.
  split; [apply tierPart_no_bar|]. split; [apply storagePart_no_bar|].
  apply corePart_no_bar.
Qed.

Lemma key_parts_delimiter_free_witness :
  Js.occurs "|" (name (mk "B" "Widget Pro 256GB (Black)" None)) = false
  ∧ Js.occurs "|" (corePart (mk "B" "Widget Pro 256GB (Black)" None)) = false.
Proof.
  split; [reflexivity|].
  apply (key_parts_delimiter_free (mk "B" "Widget Pro 256GB (Black)" None)).
  reflexivity.
Defined.

(** * The two tier vocabularies *)

Section TierVocabularies.

Implicit Types (c : ascii) (s w : string).

(** Two character classes that agree on the characters of a string split
    it alike. *)
Lemma split_ext (f g : ascii → bool) s :
  allIn (λ c, Bool.eqb (f c) (g c)) s = true → Js.split f s = Js.split g s.
Proof.
  unfold allIn. induction s as [|x s IH]; [done|]. simpl.
  intros [Hx Hs]%andb_true_iff. apply Bool.eqb_prop in Hx.
  rewrite <- Hx, <- (IH Hs).
  assert (Js.startsWith f s = Js.startsWith g s) as <-; [|done].
  destruct s as [|y s]; [done|]. simpl in *.
  apply andb_true_iff in Hs as [Hy _]. by apply Bool.eqb_prop in Hy.
Qed.

Lemma separators_agree c :
  Ascii.eqb c "/" = false → Ascii.eqb c "," = false →
  Bool.eqb (isNameSeparator c) (RetailerMatcher.isWordSeparator c) = true.
Proof.
  intros H1 H2. unfold isNameSeparator, RetailerMatcher.isWordSeparator.
  rewrite H1, H2, !orb_false_r. apply Bool.eqb_reflx.
Qed.

Lemma toLowerChar_slash x : Js.toLowerChar x = "/"%char → x = "/"%char.
Proof. destruct x as [[] [] [] [] [] [] [] []]; vm_compute; congruence. Qed.

Lemma toLowerChar_comma x : Js.toLowerChar x = ","%char → x = ","%char.
Proof. destruct x as [[] [] [] [] [] [] [] []]; vm_compute; congruence. Qed.

Lemma split_without_slash_comma s :
  Js.occurs "/" s = false → Js.occurs "," s = false →
  Js.split isNameSeparator s = Js.split RetailerMatcher.isWordSeparator s.
Proof.
  intros H1 H2. apply split_ext. unfold allIn.
  induction s as [|x s IH]; [done|]. simpl.
  rewrite occurs_cons in H1, H2.
  apply orb_false_iff in H1 as [H1 H1'], H2 as [H2 H2'].
  rewrite IH by done. rewrite separators_agree; [done|..].
  - by rewrite Ascii.eqb_sym.
  - by rewrite Ascii.eqb_sym.
Qed.

(** The matcher's vocabulary is the resolver's with two more words. *)
Lemma matcher_vocabulary w :
  w ∈ RetailerMatcher.TIER_WORDS ↔ w ∈ TIER_WORDS ∨ w = "standard" ∨ w = "basic".
Proof.
  unfold RetailerMatcher.TIER_WORDS, TIER_WORDS.
  rewrite elem_of_list_to_set, !elem_of_cons, !elem_of_nil. tauto.
Qed.

Lemma filter_ext_in {A} (f g : A → bool) (l : list A) :
  Forall (λ x, f x = g x) l → List.filter f l = List.filter g l.
Proof.
  induction 1 as [|x l Hx _ IH]; simpl; [done|]. by rewrite Hx, IH.
Qed.

End TierVocabularies.

(** C1, as stated, fails: the matcher counts [standard] (and [basic]) as a
    tier word and the resolver does not. *)
Lemma tier_vocabularies_differ :
  (list_to_set (tierWords (mk "A" "Widget Standard" None)) : gset string)
  ≠ RetailerMatcher.extractTierWords (name (mk "A" "Widget Standard" None)).
Proof. intros H. apply (f_equal size) in H. vm_compute in H. discriminate. Qed.

(** The tokenizers differ as well: the resolver separates at a slash or a
    comma, the matcher does not. *)
Lemma tier_tokenizers_differ :
  (list_to_set (tierWords (mk "A" "Widget Pro/Max" None)) : gset string)
  ≠ RetailerMatcher.extractTierWords (name (mk "A" "Widget Pro/Max" None)).
Proof. intros H. apply (f_equal size) in H. vm_compute in H. discriminate. Qed.

(** C1, amended. For every product name that holds neither a slash nor a
    comma and none of whose tokens is [standard] or [basic], the tier words
    the resolver filters out of the name and the tier-word set of the
    matcher are the same set. *)
Theorem tier_sets_agree (p : RawListing) :
  Js.occurs "/" (name p) = false →
  Js.occurs "," (name p) = false →
  Js.includes (nameWords p) "standard" = false →
  Js.includes (nameWords p) "basic" = false →
  (list_to_set (tierWords p) : gset string)
  = RetailerMatcher.extractTierWords (name p).
Proof.
  intros Hslash Hcomma Hstd Hbasic.
  unfold RetailerMatcher.extractTierWords, tierWords.
  unfold nameWords in *.
  rewrite <- split_without_slash_comma;
    [|apply occurs_toLowerCase; [apply toLowerChar_slash|done]
     |apply occurs_toLowerCase; [apply toLowerChar_comma|done]].
  f_equal. apply filter_ext_in, Forall_forall. intros w Hw.
  unfold Js.includes in *.
  apply bool_decide_eq_false in Hstd, Hbasic.
  apply bool_decide_ext. rewrite matcher_vocabulary.
  split; [by left|]. intros [?|[->| ->]]; done.
Qed.

Lemma tier_sets_agree_witness :
  (list_to_set (tierWords (mk "A" "iPhone 17 Pro Max 256GB" None)) : gset string)
  = RetailerMatcher.extractTierWords (name (mk "A" "iPhone 17 Pro Max 256GB" None)).
Proof.
  apply (tier_sets_agree (mk "A" "iPhone 17 Pro Max 256GB" None)); reflexivity.
Defined.

(** * Retailer Matcher: proofs *)

Section Matcher.

Import RetailerMatcher.

Implicit Types (V P : gset string) (variant p : RawListing).

Lemma filter_elem_of {A} (f : A → bool) (l : list A) x :
  x ∈ List.filter f l ↔ x ∈ l ∧ f x = true.
Proof. by rewrite !list_elem_of_In, filter_In. Qed.

Lemma intersection_spec V P : intersection V P = V ∩ P.
Proof.
  unfold intersection. apply set_eq. intros w.
  rewrite elem_of_list_to_set, list_elem_of_In, filter_In, <- list_elem_of_In.
  rewrite elem_of_elements, bool_decide_eq_true. set_solver.
Qed.

Lemma missingWords_self V : missingWords V V = [].
Proof.
  unfold missingWords. apply filter_all_false, Forall_forall.
  intros w Hw%elem_of_elements. by rewrite bool_decide_eq_true_2.
Qed.

Lemma tiersAgree_refl variant : tiersAgree variant variant = true.
Proof. unfold tiersAgree. apply String.eqb_refl. Qed.

Lemma noSignificantMissing_refl variant : noSignificantMissing variant variant = true.
Proof. unfold noSignificantMissing. by rewrite missingWords_self. Qed.

(** Equal tier-word sets pass the first hard filter. *)
Lemma tiersAgree_intro variant p :
  extractTierWords (name variant) = extractTierWords (name p) →
  tiersAgree variant p = true.
Proof. intros E. unfold tiersAgree. rewrite E. apply String.eqb_refl. Qed.

(** The second hard filter passes exactly when every significant key word
    of the variant is a key word of the candidate. *)
Lemma noSignificantMissing_iff variant p :
  (∀ w, w ∈ extractKeyWords (name variant) → isSignificant w = true →
        w ∈ extractKeyWords (name p))
  ↔ noSignificantMissing variant p = true.
Proof.
  unfold noSignificantMissing.
  set (V := extractKeyWords (name variant)). set (P := extractKeyWords (name p)).
  assert (∀ w, w ∈ List.filter isSignificant (missingWords V P)
               ↔ w ∈ V ∧ (w ∉ P) ∧ isSignificant w = true) as Hmem.
  { intros w. unfold missingWords.
    rewrite !filter_elem_of, elem_of_elements, negb_true_iff, bool_decide_eq_false.
    tauto. }
  split.
  - intros Hall.
    destruct (List.filter isSignificant (missingWords V P)) as [|w ws] eqn:E.
    + simpl. by rewrite andb_false_r.
    + destruct (proj1 (Hmem w)) as (Hv & Hp & Hs); [left|].
      destruct Hp. by apply Hall.
  - intros Hpass w Hv Hs.
    destruct (decide (w ∈ P)) as [|Hp]; [done|]. exfalso.
    assert (w ∈ List.filter isSignificant (missingWords V P)) as Hw.
    { by apply Hmem. }
    assert (w ∈ missingWords V P) as Hw'.
    { unfold missingWords. apply filter_elem_of.
      by rewrite elem_of_elements, negb_true_iff, bool_decide_eq_false. }
    destruct (missingWords V P) as [|m ms]; [by apply elem_of_nil in Hw'|].
    destruct (List.filter isSignificant (m :: ms)) as [|m' ms'];
      [by apply elem_of_nil in Hw|done].
Qed.

(** The similarity test on two sizes. *)
Lemma geq_divide (a b : nat) :
  geq (divide a b) (2 # 5) = true ↔
    (b = 0 ∧ 0 < a)%nat ∨ (0 < b ∧ 2 * b ≤ 5 * a)%nat.
Proof.
  unfold divide. destruct b as [|b].
  - destruct a as [|a]; simpl; split; try done; try lia.
  - assert (Z.pos (Pos.of_nat (S b)) = Z.of_nat (S b)) as Hpos.
    { by rewrite <- Pos.of_nat_succ, Zpos_P_of_succ_nat, Nat2Z.inj_succ. }
    cbn [geq]. rewrite Qle_bool_iff. unfold Qle. cbn [Qnum Qden].
    rewrite Hpos. split; [intros; right; lia|intros [[? _]|[_ ?]]; lia].
Qed.

Lemma fuzzyMatch_self variant :
  extractKeyWords (name variant) ≠ ∅ → fuzzyMatch variant variant = true.
Proof.
  intros Hne. unfold fuzzyMatch.
  rewrite tiersAgree_refl, noSignificantMissing_refl. simpl.
  unfold similarity. rewrite intersection_spec.
  rewrite (intersection_idemp_L (extractKeyWords (name variant))).
  apply geq_divide. right.
  assert (size (extractKeyWords (name variant)) ≠ 0) as Hsz.
  { intros E%size_empty_iff. apply Hne. by apply leibniz_equiv. }
  lia.
Qed.

Lemma modelMatch_self variant : hasModel variant = true → modelMatch variant variant = true.
Proof. intros H. unfold modelMatch. rewrite H. apply String.eqb_refl. Qed.

(** Where the matcher does return the chosen variant: it has a model code,
    or its name yields at least one key word. *)
Lemma match_contains_chosen variant (allProducts : list RawListing) :
  variant ∈ allProducts →
  hasModel variant = true ∨ extractKeyWords (name variant) ≠ ∅ →
  variant ∈ handleVariantSelected variant allProducts.
Proof.
  intros Hin Hcase. unfold handleVariantSelected.
  destruct (hasModel variant) eqn:Hm.
  - assert (variant ∈ List.filter (modelMatch variant) allProducts) as Hv.
    { apply filter_elem_of. split; [done|by apply modelMatch_self]. }
    destruct (List.filter (modelMatch variant) allProducts) as [|q l]; [|done].
    by apply elem_of_nil in Hv.
  - simpl. apply filter_elem_of. split; [done|].
    apply fuzzyMatch_self. by destruct Hcase.
Qed.

End Matcher.

(** The scenario of three listings, the first chosen: the two Pro listings
    are matched, the plain one is not. *)
Example match_widget_pro :
  RetailerMatcher.handleVariantSelected (mk "A" "Widget Pro 256GB" None)
    [mk "A" "Widget Pro 256GB" None; mk "B" "Widget Pro 256GB (Black)" None;
     mk "C" "Widget 256GB" None]
  = [mk "A" "Widget Pro 256GB" None; mk "B" "Widget Pro 256GB (Black)" None].
Proof. reflexivity. Qed.

(** C2. With the chosen variant among the listings, the matcher is to
    return a list that holds it.  The code does so whenever the variant has
    a model code or a key word ([match_contains_chosen]); a variant without
    model code whose name yields no key word compares with itself at 0/0,
    which is NaN, and is rejected by [similarity >= 0.4]: the result does
    not hold it. *)
Theorem match_loses_chosen_without_key_words :
  let chosen := mk "A" "" None in
  chosen ∈ [chosen; mk "B" "Widget Pro 256GB" None]
  ∧ RetailerMatcher.extractKeyWords (name chosen) = ∅
  ∧ RetailerMatcher.similarity (RetailerMatcher.extractKeyWords (name chosen))
      (RetailerMatcher.extractKeyWords (name chosen)) = RetailerMatcher.NaN
  ∧ RetailerMatcher.handleVariantSelected chosen
      [chosen; mk "B" "Widget Pro 256GB" None] = [].
Proof.
  split; [by left|]. repeat split; by vm_compute.
Qed.

(** C3. Take a variant and a candidate with equal tier-word sets and such
    that every significant key word of the variant (longer than three
    characters, or holding a digit) is a key word of the candidate.  The
    candidate is accepted exactly when the size of the intersection of the
    two key-word sets divided by the larger of their sizes is at least 0.4.
    (Two empty sets give 0/0: NaN in the code, 0 in [Q]; the candidate is
    rejected either way.)  So a ratio of exactly 0.4 is accepted and a ratio
    of 0.399 is rejected. *)
Theorem similarity_threshold (variant p : RawListing) :
  RetailerMatcher.extractTierWords (name variant)
  = RetailerMatcher.extractTierWords (name p) →
  (∀ w, w ∈ RetailerMatcher.extractKeyWords (name variant) →
        RetailerMatcher.isSignificant w = true →
        w ∈ RetailerMatcher.extractKeyWords (name p)) →
  let V := RetailerMatcher.extractKeyWords (name variant) in
  let P := RetailerMatcher.extractKeyWords (name p) in
  let ratio := (inject_Z (Z.of_nat (size (V ∩ P)))
                / inject_Z (Z.of_nat (Nat.max (size V) (size P))))%Q in
  (RetailerMatcher.fuzzyMatch variant p = true ↔ (2 # 5 <= ratio)%Q)
  ∧ (ratio == 2 # 5 → RetailerMatcher.fuzzyMatch variant p = true)%Q
  ∧ (ratio == 399 # 1000 → RetailerMatcher.fuzzyMatch variant p = false)%Q.
Proof.
  intros Ht%tiersAgree_intro Hs%noSignificantMissing_iff V P ratio.
  assert (RetailerMatcher.fuzzyMatch variant p = true ↔ (2 # 5 <= ratio)%Q) as Hiff.
  { unfold RetailerMatcher.fuzzyMatch. rewrite Ht, Hs. simpl.
    unfold RetailerMatcher.similarity. rewrite intersection_spec.
    fold V P. rewrite geq_divide. unfold ratio.
    assert (size (V ∩ P) ≤ size V)%nat as Hle
      by apply subseteq_size, intersection_subseteq_l.
    set (a := size (V ∩ P)) in *. set (b := Nat.max (size V) (size P)).
    assert (a ≤ b)%nat as Hab by (unfold b; lia).
    destruct (decide (b = 0)) as [Hb|Hb].
    - rewrite Hb. assert (a = 0) as -> by lia.
      split; [intros [[_ ?]|[? _]]; lia|].
      unfold Qle, Qdiv, Qmult, Qinv; simpl. lia.
    - assert ((inject_Z (Z.of_nat a) / inject_Z (Z.of_nat b))%Q
              = (Z.of_nat a # Z.to_pos (Z.of_nat b))) as ->.
      { unfold Qdiv, Qmult, Qinv, inject_Z. simpl.
        destruct (Z.of_nat b) eqn:E; [lia| |lia]. simpl.
        by rewrite Z.mul_1_r. }
      unfold Qle. simpl. rewrite Z2Pos.id by lia.
      split; [intros [[? _]|[_ ?]]; lia|intros; right; lia]. }
  split; [done|]. split.
  - intros E. apply Hiff. rewrite E. apply Qle_refl.
  - intros E. apply not_true_is_false. rewrite Hiff, E. by vm_compute.
Qed.

(** Two of five key words shared: a ratio of exactly 0.4, accepted. *)
Lemma similarity_threshold_witness :
  RetailerMatcher.fuzzyMatch (mk "A" "ab cd ef gh ij" None)
    (mk "B" "ab cd kl mn op" None) = true.
Proof.
  apply (similarity_threshold (mk "A" "ab cd ef gh ij" None)
           (mk "B" "ab cd kl mn op" None)).
  - reflexivity.
  - intros w Hw%elem_of_elements%list_elem_of_In Hsig.
    vm_compute in Hw.
    destruct Hw as [<-|[<-|[<-|[<-|[<-|[]]]]]]; vm_compute in Hsig; discriminate.
  - vm_compute. reflexivity.
Defined.

(** Three of eight shared, 0.375: rejected. *)
Example similarity_below_threshold :
  RetailerMatcher.fuzzyMatch (mk "A" "ab cd ef" None)
    (mk "B" "ab cd ef gh ij kl mn op" None) = false.
Proof. reflexivity. Qed.

(** * Price History Merger: proofs *)

Section Merger.

Implicit Types (dm : gmap string row) (lk : gmap string Q) (r : row)
  (rows : list row) (R : list string) (x d : string).

(** *** Placement *)

Lemma placeEntry_placeObs retailer dm e :
  placeEntry retailer dm e
  = placeObs dm (retailer, dateOf (timestamp e), PriceHistory.price e).
Proof. reflexivity. Qed.

Lemma buildDateMap_observations (H : list (string * list entry)) : ∀ dm,
  foldl placeHistory dm H = foldl placeObs dm (observations H).
Proof.
  induction H as [|h H IH]; intros dm; [done|]. simpl.
  rewrite foldl_app, <- IH. f_equal.
  unfold placeHistory. by rewrite foldl_fmap.
Qed.

Lemma cellAt_placeObs dm retailer' d' p x d :
  cellAt (placeObs dm (retailer', d', p)) x d
  = orElse (if bool_decide (x = retailer' ∧ d = d') then Some p else None)
           (cellAt dm x d).
Proof.
  unfold cellAt. simpl. destruct (decide (d = d')) as [->|Hd].
  - rewrite lookup_insert_eq. simpl.
    destruct (decide (x = retailer')) as [->|Hx].
    + rewrite lookup_insert_eq. by rewrite bool_decide_eq_true_2.
    + rewrite lookup_insert_ne by done.
      rewrite bool_decide_eq_false_2 by (intros [? _]; done). simpl.
      by destruct (dm !! d').
  - rewrite lookup_insert_ne by done.
    by rewrite bool_decide_eq_false_2 by (intros [_ ?]; done).
Qed.

Lemma cellAt_place (l : list (string * string * Q)) : ∀ dm x d,
  cellAt (foldl placeObs dm l) x d = orElse (observedIn l x d) (cellAt dm x d).
Proof.
  induction l as [|[[r' d'] p] l IH]; intros dm x d; [done|].
  cbn [foldl observedIn]. rewrite IH, cellAt_placeObs.
  destruct (observedIn l x d); [done|]. simpl.
  by destruct (bool_decide _).
Qed.

Lemma keyed_placeObs dm o : keyed dm → keyed (placeObs dm o).
Proof.
  destruct o as [[r' d'] p]. intros Hk d r. simpl.
  destruct (decide (d = d')) as [->|Hd].
  - rewrite lookup_insert_eq. intros [= <-]. simpl.
    destruct (dm !! d') as [r0|] eqn:E; simpl; [by apply Hk|done].
  - rewrite lookup_insert_ne by done. apply Hk.
Qed.

Lemma keyed_place (l : list (string * string * Q)) : ∀ dm,
  keyed dm → keyed (foldl placeObs dm l).
Proof.
  induction l as [|o l IH]; intros dm Hk; [done|].
  simpl. by apply IH, keyed_placeObs.
Qed.

Lemma dom_placeObs dm o : dom (placeObs dm o) = {[o.1.2]} ∪ dom dm.
Proof. destruct o as [[r' d'] p]. simpl. by rewrite dom_insert_L. Qed.

Lemma dom_place (l : list (string * string * Q)) : ∀ dm d,
  d ∈ dom (foldl placeObs dm l) ↔ d ∈ ((λ o, o.1.2) <$> l) ∨ d ∈ dom dm.
Proof.
  induction l as [|o l IH]; intros dm d; simpl.
  - rewrite elem_of_nil. tauto.
  - rewrite IH, dom_placeObs, elem_of_cons, elem_of_union, elem_of_singleton. tauto.
Qed.

Lemma observedIn_elem_of (l : list (string * string * Q)) x d p :
  observedIn l x d = Some p → (x, d, p) ∈ l.
Proof.
  induction l as [|[[r' d'] q] l IH]; [done|]. simpl.
  rewrite elem_of_cons. destruct (observedIn l x d); simpl.
  - intros [= <-]. right. by apply IH.
  - case_bool_decide as Hc; [|done]. intros [= <-]. left. by destruct Hc as [-> ->].
Qed.

Lemma observedIn_unique (l : list (string * string * Q)) x d p :
  (x, d, p) ∈ l → (∀ q, (x, d, q) ∈ l → q = p) → observedIn l x d = Some p.
Proof.
  intros Hin Huniq.
  assert (is_Some (observedIn l x d)) as [q Hq].
  { clear Huniq. induction l as [|[[r' d'] q] l IH]; [by apply elem_of_nil in Hin|].
    simpl. apply elem_of_cons in Hin as [[= <- <- <-]|Hin].
    - rewrite bool_decide_eq_true_2 by done. by destruct (observedIn l x d).
    - destruct (IH Hin) as [q' ->]. by eexists. }
  rewrite Hq. f_equal. by apply Huniq, observedIn_elem_of.
Qed.

Lemma observations_retailer (H : list (string * list entry)) x d p :
  (x, d, p) ∈ observations H → x ∈ H.*1.
Proof.
  induction H as [|h H IH]; simpl; [by intros ?%elem_of_nil|].
  rewrite elem_of_app, elem_of_cons.
  intros [(e & [= -> _ _] & _)%list_elem_of_fmap|Hin]; [by left|right; by apply IH].
Qed.

Lemma observed_retailer (H : list (string * list entry)) x d p :
  observed H x d = Some p → x ∈ H.*1.
Proof. intros Ho%observedIn_elem_of. by eapply observations_retailer. Qed.

Lemma observed_date (H : list (string * list entry)) x d p :
  observed H x d = Some p → d ∈ observationDates H.
Proof.
  intros Ho%observedIn_elem_of. unfold observationDates.
  apply list_elem_of_fmap. by exists (x, d, p).
Qed.

(** *** Sorting *)

Global Instance dateLe_trans : Transitive dateLe.
Proof. intros a b c. unfold dateLe. apply transitivity. Qed.

Global Instance dateLe_total : Total dateLe.
Proof. intros a b. unfold dateLe. apply (total String.le). Qed.

Lemma sorted_elem_of dm r :
  keyed dm → r ∈ sorted dm ↔ dm !! date r = Some r.
Proof.
  intros Hk. unfold sorted.
  rewrite (merge_sort_Permutation dateLe), list_elem_of_fmap. split.
  - intros ([k r'] & -> & Hin%elem_of_map_to_list). simpl.
    by rewrite (Hk _ _ Hin).
  - intros Hr. exists (date r, r). split; [done|]. by apply elem_of_map_to_list.
Qed.

Lemma dates_of_values dm : keyed dm → date <$> (map_to_list dm).*2 = (map_to_list dm).*1.
Proof.
  intros Hk. rewrite <- list_fmap_compose. apply list_fmap_ext.
  intros i [k r] Hin. simpl. apply Hk, elem_of_map_to_list.
  by eapply list_elem_of_lookup_2.
Qed.

Lemma strictly_ascending rows :
  StronglySorted dateLe rows → NoDup (date <$> rows) → ascending rows.
Proof.
  unfold ascending. induction 1 as [|r rows Hs IH Hall]; [constructor|].
  rewrite fmap_cons, NoDup_cons. intros [Hr Hnd].
  constructor; [by apply IH|].
  apply Forall_forall. intros r' Hr'. split.
  - rewrite Forall_forall in Hall. by apply Hall.
  - intros E. apply Hr. rewrite E. by apply list_elem_of_fmap_2.
Qed.

Lemma sorted_ascending dm : keyed dm → ascending (sorted dm).
Proof.
  intros Hk. apply strictly_ascending.
  - apply (StronglySorted_merge_sort dateLe).
  - unfold sorted. rewrite (merge_sort_Permutation dateLe).
    rewrite dates_of_values by done. apply NoDup_fst_map_to_list.
Qed.

Lemma earlier_irrefl d : ¬ earlier d d.
Proof. by intros [_ ?]. Qed.

Lemma earlier_asym d1 d2 : earlier d1 d2 → ¬ earlier d2 d1.
Proof.
  intros [H1 N1] [H2 _]. apply N1. by apply (anti_symm String.le).
Qed.

(** *** Forward fill *)

Lemma fillCell_date lk r x : date (fillCell (lk, r) x).2 = date r.
Proof.
  unfold fillCell. destruct (cells r !! x); [done|]. by destruct (lk !! x).
Qed.

Lemma fillRow_date R : ∀ lk r, date (foldl fillCell (lk, r) R).2 = date r.
Proof.
  induction R as [|y R IH]; intros lk r; [done|]. cbn [foldl].
  destruct (fillCell (lk, r) y) as [lk1 r1] eqn:E.
  rewrite IH. by rewrite <- (fillCell_date lk r y), E.
Qed.

(** After the inner loop, a retailer of the list has its own cell when it
    had one and the last known price otherwise, in the row and in
    [lastKnown] alike; anything else is untouched. *)
Lemma fillRow_lookup R : ∀ lk r x,
  cells (foldl fillCell (lk, r) R).2 !! x
  = (if bool_decide (x ∈ R) then orElse (cells r !! x) (lk !! x) else cells r !! x)
  ∧ (foldl fillCell (lk, r) R).1 !! x
    = (if bool_decide (x ∈ R) then orElse (cells r !! x) (lk !! x) else lk !! x).
Proof.
  induction R as [|y R IH]; intros lk r x.
  - by rewrite bool_decide_eq_false_2 by apply not_elem_of_nil.
  - cbn [foldl]. destruct (fillCell (lk, r) y) as [lk1 r1] eqn:E.
    destruct (IH lk1 r1 x) as [-> ->]. clear IH.
    assert (cells r1 !! x
            = (if bool_decide (x = y) then orElse (cells r !! x) (lk !! x)
               else cells r !! x)
            ∧ lk1 !! x
              = (if bool_decide (x = y) then orElse (cells r !! x) (lk !! x)
                 else lk !! x)) as [-> ->].
    { unfold fillCell in E. case_bool_decide as Hxy.
      - subst y. destruct (cells r !! x) as [p|] eqn:Ec.
        + injection E as <- <-. by rewrite lookup_insert_eq, Ec.
        + destruct (lk !! x) as [p|] eqn:El; injection E as <- <-; simpl.
          * by rewrite lookup_insert_eq, El.
          * by rewrite Ec, El.
      - destruct (cells r !! y) as [p|].
        + injection E as <- <-. by rewrite lookup_insert_ne.
        + destruct (lk !! y) as [p|]; injection E as <- <-; simpl; [|done].
          by rewrite lookup_insert_ne. }
    destruct (decide (x = y)) as [->|Hxy].
    + rewrite (bool_decide_eq_true_2 (y = y)) by done.
      rewrite (bool_decide_eq_true_2 (y ∈ y :: R)) by left.
      destruct (cells r !! y), (lk !! y); simpl; by case_bool_decide.
    + rewrite (bool_decide_eq_false_2 (x = y)) by done.
      assert (bool_decide (x ∈ y :: R) = bool_decide (x ∈ R)) as ->; [|done].
      apply bool_decide_ext. rewrite elem_of_cons. tauto.
Qed.

Lemma fillRow_cell R lk r x :
  cells (foldl fillCell (lk, r) R).2 !! x
  = if bool_decide (x ∈ R) then orElse (cells r !! x) (lk !! x) else cells r !! x.
Proof. apply fillRow_lookup. Qed.

Lemma fillRow_lastKnown R lk r x :
  (foldl fillCell (lk, r) R).1 !! x
  = if bool_decide (x ∈ R) then orElse (cells r !! x) (lk !! x) else lk !! x.
Proof. apply fillRow_lookup. Qed.

(** A row in which every retailer of the list has a cell is left as it is. *)
Lemma fillRow_full R : ∀ lk r,
  (∀ x, x ∈ R → is_Some (cells r !! x)) → (foldl fillCell (lk, r) R).2 = r.
Proof.
  induction R as [|y R IH]; intros lk r Hfull; [done|]. cbn [foldl].
  destruct (Hfull y) as [p Hp]; [by left|].
  unfold fillCell at 2. rewrite Hp. apply IH.
  intros x Hx. apply Hfull. by right.
Qed.

Lemma fillForward_full R rows : ∀ lk,
  Forall (λ r, ∀ x, x ∈ R → is_Some (cells r !! x)) rows →
  fillForward R lk rows = rows.
Proof.
  induction rows as [|r rows IH]; intros lk Hall; [done|].
  inversion Hall as [|? ? Hr Hrows]; subst. cbn [fillForward].
  by rewrite fillRow_full, IH.
Qed.

Lemma fillForward_app R pre : ∀ lk rest,
  fillForward R lk (pre ++ rest)
  = fillForward R lk pre ++ fillForward R (carry R lk pre) rest.
Proof.
  induction pre as [|r pre IH]; intros lk rest; [done|].
  cbn [app fillForward]. by rewrite IH.
Qed.

(** A row of the output is a row of the input, filled from what the loop
    carried over the rows before it. *)
Lemma fillForward_elem_of R rows : ∀ lk r',
  r' ∈ fillForward R lk rows →
  ∃ pre r post, rows = pre ++ r :: post
    ∧ r' = (foldl fillCell (carry R lk pre, r) R).2.
Proof.
  induction rows as [|r rows IH]; intros lk r'; cbn [fillForward].
  - by intros ?%elem_of_nil.
  - intros [->|Hin]%elem_of_cons.
    + by exists [], r, rows.
    + destruct (IH _ _ Hin) as (pre & r0 & post & -> & ->).
      by exists (r :: pre), r0, post.
Qed.

Lemma fillForward_elem_of_2 R pre r post lk :
  (foldl fillCell (carry R lk pre, r) R).2 ∈ fillForward R lk (pre ++ r :: post).
Proof. rewrite fillForward_app. apply elem_of_app. right. left. Qed.

Lemma fillForward_dates R rows : ∀ lk, date <$> fillForward R lk rows = date <$> rows.
Proof.
  induction rows as [|r rows IH]; intros lk; [done|].
  cbn [fillForward]. by rewrite !fmap_cons, fillRow_date, IH.
Qed.

Lemma carry_lookup R rows : ∀ lk x,
  carry R lk rows !! x
  = if bool_decide (x ∈ R) then lastSeen x (lk !! x) rows else lk !! x.
Proof.
  unfold carry, lastSeen. induction rows as [|r rows IH]; intros lk x.
  - cbn [foldl]. by case_bool_decide.
  - cbn [foldl]. rewrite IH, fillRow_lastKnown. by case_bool_decide.
Qed.

Lemma lastSeen_snoc x init rows r :
  lastSeen x init (rows ++ [r]) = orElse (cells r !! x) (lastSeen x init rows).
Proof. unfold lastSeen. by rewrite foldl_snoc. Qed.

(** The value carried for a retailer is its cell in the latest row that
    has one. *)
Lemma lastSeen_Some x rows p :
  lastSeen x None rows = Some p →
  ∃ pre r post, rows = pre ++ r :: post ∧ cells r !! x = Some p
    ∧ Forall (λ r', cells r' !! x = None) post.
Proof.
  induction rows as [|r rows IH] using rev_ind; [done|].
  rewrite lastSeen_snoc. destruct (cells r !! x) as [q|] eqn:E; simpl.
  - intros [= ->]. by exists rows, r, [].
  - intros (pre & r0 & post & -> & Hc & Hpost)%IH.
    exists pre, r0, (post ++ [r]). rewrite <- app_assoc. split; [done|].
    split; [done|]. apply Forall_app. by split; [|repeat constructor].
Qed.

Lemma lastSeen_None x rows :
  lastSeen x None rows = None → Forall (λ r, cells r !! x = None) rows.
Proof.
  induction rows as [|r rows IH] using rev_ind; [done|].
  rewrite lastSeen_snoc. destruct (cells r !! x) as [q|] eqn:E; simpl; [done|].
  intros Hn%IH. apply Forall_app. by split; [|repeat constructor].
Qed.

(** *** The merged table *)

Lemma buildDateMap_place (H : list (string * list entry)) :
  buildDateMap H = foldl placeObs ∅ (observations H).
Proof. apply buildDateMap_observations. Qed.

Lemma buildDateMap_keyed (H : list (string * list entry)) : keyed (buildDateMap H).
Proof.
  rewrite buildDateMap_place. apply keyed_place. intros d r.
  by rewrite lookup_empty.
Qed.

Lemma buildDateMap_cellAt (H : list (string * list entry)) x d :
  cellAt (buildDateMap H) x d = observed H x d.
Proof.
  rewrite buildDateMap_place, cellAt_place. unfold observed, cellAt.
  rewrite lookup_empty. simpl. by destruct (observedIn _ x d).
Qed.

(** The sorted table holds the observations, and nothing else. *)
Lemma table_cell (H : list (string * list entry)) r x :
  r ∈ sorted (buildDateMap H) → cells r !! x = observed H x (date r).
Proof.
  intros Hr%sorted_elem_of; [|apply buildDateMap_keyed].
  rewrite <- buildDateMap_cellAt. unfold cellAt. by rewrite Hr.
Qed.

Lemma table_row_of_date (H : list (string * list entry)) d :
  d ∈ observationDates H ↔ ∃ r, r ∈ sorted (buildDateMap H) ∧ date r = d.
Proof.
  pose proof (buildDateMap_keyed H) as Hk.
  pose proof (dom_place (observations H) ∅ d) as Hdom.
  rewrite <- buildDateMap_place, dom_empty_L, elem_of_dom in Hdom.
  fold (observationDates H) in Hdom. split.
  - intros Hd. destruct Hdom as [_ [r Hr]]; [by left|].
    exists r. pose proof (Hk _ _ Hr) as Hdate. split; [|done].
    apply sorted_elem_of; [done|]. by rewrite Hdate.
  - intros (r & Hr%sorted_elem_of & <-); [|done].
    destruct Hdom as [[?|Hin] _]; [by exists r|done|].
    by apply elem_of_empty in Hin.
Qed.

Lemma table_row_of_observation (H : list (string * list entry)) x d p :
  observed H x d = Some p →
  ∃ r, r ∈ sorted (buildDateMap H) ∧ date r = d ∧ cells r !! x = Some p.
Proof.
  intros Ho. destruct (proj1 (table_row_of_date H d)) as (r & Hr & <-).
  { by eapply observed_date. }
  exists r. by rewrite (table_cell H r x Hr).
Qed.

(** A row of the merged series: a row of the sorted table, with the cells
    it lacks taken from the latest earlier row that has them. *)
Lemma merge_row (H : list (string * list entry)) r :
  r ∈ merge H →
  ∃ pre r0 post, sorted (buildDateMap H) = pre ++ r0 :: post
    ∧ date r = date r0
    ∧ ∀ x, cells r !! x
           = orElse (observed H x (date r))
               (if bool_decide (x ∈ H.*1) then lastSeen x None pre else None).
Proof.
  unfold merge. intros (pre & r0 & post & Hrows & ->)%fillForward_elem_of.
  exists pre, r0, post. split; [done|]. rewrite fillRow_date. split; [done|].
  intros x. rewrite fillRow_cell, carry_lookup, lookup_empty.
  assert (r0 ∈ sorted (buildDateMap H)) as Hr0.
  { rewrite Hrows. apply elem_of_app. right. left. }
  rewrite (table_cell H r0 x Hr0).
  case_bool_decide as Hx; [done|].
  destruct (observed H x (date r0)) eqn:E; [done|]. done.
Qed.

Lemma merge_dates (H : list (string * list entry)) :
  date <$> merge H = date <$> sorted (buildDateMap H).
Proof. apply fillForward_dates. Qed.

Lemma ascending_dates rows rows' :
  date <$> rows' = date <$> rows → ascending rows → ascending rows'.
Proof.
  unfold ascending. revert rows'.
  induction rows as [|r rows IH]; intros [|r' rows']; try done.
  rewrite !fmap_cons. intros [= Hd Hds].
  rewrite !StronglySorted_cons. intros [Hall Hs]. split; [|by apply IH].
  rewrite Hd. rewrite Forall_forall in Hall. apply Forall_forall.
  intros a Ha. apply (list_elem_of_fmap_2 date) in Ha. rewrite Hds in Ha.
  apply list_elem_of_fmap in Ha as (b & -> & Hb). by apply Hall.
Qed.

Lemma merge_ascending (H : list (string * list entry)) : ascending (merge H).
Proof.
  eapply ascending_dates; [apply merge_dates|].
  apply sorted_ascending, buildDateMap_keyed.
Qed.

Lemma merge_row_of_date (H : list (string * list entry)) d :
  d ∈ date <$> merge H ↔ d ∈ observationDates H.
Proof.
  rewrite merge_dates, table_row_of_date, list_elem_of_fmap. split.
  - intros (r & -> & Hr). by exists r.
  - intros (r & Hr & <-). by exists r.
Qed.

(** *** Reading the merged rows back *)

Lemma orElse_None_r {A} (a : option A) : orElse a None = a.
Proof. by destruct a. Qed.

Lemma orElse_assoc {A} (a b c : option A) :
  orElse (orElse a b) c = orElse a (orElse b c).
Proof. by destruct a. Qed.

Lemma orElse_idemp {A} (a : option A) : orElse a a = a.
Proof. by destruct a. Qed.

Lemma observedIn_app (l1 l2 : list (string * string * Q)) x d :
  observedIn (l1 ++ l2) x d = orElse (observedIn l2 x d) (observedIn l1 x d).
Proof.
  induction l1 as [|[[r' d'] p] l1 IH]; simpl.
  - by rewrite orElse_None_r.
  - by rewrite IH, orElse_assoc.
Qed.

Lemma observedIn_is_Some (l : list (string * string * Q)) x d :
  is_Some (observedIn l x d) ↔ ∃ p, (x, d, p) ∈ l.
Proof.
  split.
  - intros [p Hp]. exists p. by apply observedIn_elem_of.
  - intros [p Hin].
    induction l as [|[[r' d'] q] l IH]; [by apply elem_of_nil in Hin|].
    simpl. apply elem_of_cons in Hin as [[= <- <- <-]|Hin].
    + rewrite bool_decide_eq_true_2 by done. by destruct (observedIn l x d).
    + destruct (IH Hin) as [q' ->]. by eexists.
Qed.

Lemma observedIn_other_retailer (l : list (string * string * Q)) x d :
  Forall (λ o, o.1.1 ≠ x) l → observedIn l x d = None.
Proof.
  induction 1 as [|[[r' d'] p] l Ho _ IH]; [done|]. simpl in *.
  rewrite IH. simpl. by rewrite bool_decide_eq_false_2 by (intros [? _]; done).
Qed.

(** The table is determined by what was observed. *)
Lemma buildDateMap_ext (H1 H2 : list (string * list entry)) :
  (∀ x d, observed H1 x d = observed H2 x d) → buildDateMap H1 = buildDateMap H2.
Proof.
  intros Hobs.
  assert (∀ H d r, buildDateMap H !! d = Some r →
            date r = d ∧ ∀ x, cells r !! x = observed H x d) as Hrow.
  { intros H d r Hr. split; [by eapply buildDateMap_keyed|].
    intros x. rewrite <- buildDateMap_cellAt. unfold cellAt. by rewrite Hr. }
  assert (∀ H d, buildDateMap H !! d = None → ∀ x, observed H x d = None) as Hnone.
  { intros H d Hd x. rewrite <- buildDateMap_cellAt. unfold cellAt. by rewrite Hd. }
  assert (∀ H d r, buildDateMap H !! d = Some r → ∃ x, is_Some (observed H x d)) as Hsome.
  { intros H d r Hr.
    assert (d ∈ observationDates H) as Hd.
    { apply table_row_of_date. exists r.
      pose proof (buildDateMap_keyed H _ _ Hr) as Hdate. split; [|done].
      apply sorted_elem_of; [apply buildDateMap_keyed|]. by rewrite Hdate. }
    apply list_elem_of_fmap in Hd as ([[x d'] p] & -> & Hin). simpl.
    exists x. apply observedIn_is_Some. by exists p. }
  apply map_eq. intros d.
  destruct (buildDateMap H1 !! d) as [r1|] eqn:E1,
           (buildDateMap H2 !! d) as [r2|] eqn:E2; [| | |done].
  - destruct (Hrow _ _ _ E1) as [Hd1 Hc1], (Hrow _ _ _ E2) as [Hd2 Hc2].
    f_equal. destruct r1 as [d1 c1], r2 as [d2 c2]. simpl in *. subst d1 d2.
    f_equal. apply map_eq. intros x. by rewrite Hc1, Hc2.
  - destruct (Hsome _ _ _ E1) as [x Hx]. rewrite Hobs, (Hnone _ _ E2) in Hx.
    by destruct Hx.
  - destruct (Hsome _ _ _ E2) as [x Hx]. rewrite <- Hobs, (Hnone _ _ E1) in Hx.
    by destruct Hx.
Qed.

Lemma before_free c s : Js.occurs c (Js.before c s) = false.
Proof.
  induction s as [|x s IH]; [done|]. simpl.
  destruct (Ascii.eqb_spec x c) as [->|Hne]; [done|].
  rewrite occurs_cons, IH, orb_false_r. by apply Ascii.eqb_neq.
Qed.

Lemma before_id c s : Js.occurs c s = false → Js.before c s = s.
Proof.
  induction s as [|x s IH]; [done|]. rewrite occurs_cons. simpl.
  intros [Hx Hs]%orb_false_iff. rewrite Ascii.eqb_sym, Hx. by rewrite IH.
Qed.

Lemma occurs_before c c' s :
  Js.occurs c s = false → Js.occurs c (Js.before c' s) = false.
Proof.
  induction s as [|x s IH]; [done|]. rewrite occurs_cons. simpl.
  intros [Hx Hs]%orb_false_iff. destruct (Ascii.eqb x c'); [done|].
  by rewrite occurs_cons, Hx, IH.
Qed.

(** A date is its own date component. *)
Lemma dateOf_idemp ts : dateOf (dateOf ts) = dateOf ts.
Proof.
  unfold dateOf. rewrite (before_id "T").
  - apply before_id, before_free.
  - apply occurs_before, before_free.
Qed.

Lemma observationDates_dateOf (H : list (string * list entry)) d :
  d ∈ observationDates H → dateOf d = d.
Proof.
  unfold observationDates. intros ([[x d'] p] & -> & Hin)%list_elem_of_fmap.
  simpl. induction H as [|h H IH]; [by apply elem_of_nil in Hin|].
  simpl in Hin. apply elem_of_app in Hin as [Hin|Hin]; [|by apply IH].
  apply list_elem_of_fmap in Hin as (e & [= _ -> _] & _). apply dateOf_idemp.
Qed.

Lemma ascending_NoDup rows : ascending rows → NoDup (date <$> rows).
Proof.
  unfold ascending. induction 1 as [|r rows _ IH Hall]; [constructor|].
  rewrite fmap_cons. constructor; [|done].
  intros (r' & E & Hr')%list_elem_of_fmap.
  rewrite Forall_forall in Hall. destruct (Hall _ Hr') as [_ Hne]. done.
Qed.

Lemma historyOf_cons r rows x :
  historyOf (r :: rows) x
  = match cells r !! x with
    | Some p => {| timestamp := date r; PriceHistory.price := p |} :: historyOf rows x
    | None => historyOf rows x
    end.
Proof. unfold historyOf. simpl. by destruct (cells r !! x). Qed.

Lemma observedIn_cons (l : list (string * string * Q)) y d' (p : Q) x d :
  observedIn ((y, d', p) :: l) x d
  = orElse (observedIn l x d)
           (if bool_decide (x = y ∧ d = d') then Some p else None).
Proof. reflexivity. Qed.

(** What a retailer's read-back history says about a date. *)
Lemma historyOf_missing rows x d :
  Forall (λ r, dateOf (date r) = date r) rows → d ∉ date <$> rows →
  observedIn ((λ e, (x, dateOf (timestamp e), PriceHistory.price e))
                <$> historyOf rows x) x d = None.
Proof.
  induction 1 as [|r rows Hr _ IH]; [done|].
  rewrite fmap_cons, not_elem_of_cons. intros [Hd Hds].
  rewrite historyOf_cons. destruct (cells r !! x) as [p|]; [|by apply IH].
  rewrite fmap_cons, observedIn_cons, IH by done. cbn [timestamp orElse].
  rewrite Hr. by rewrite bool_decide_eq_false_2 by (intros [_ ?]; done).
Qed.

Lemma historyOf_cell rows x r :
  Forall (λ r, dateOf (date r) = date r) rows → NoDup (date <$> rows) →
  r ∈ rows →
  observedIn ((λ e, (x, dateOf (timestamp e), PriceHistory.price e))
                <$> historyOf rows x) x (date r) = cells r !! x.
Proof.
  induction 1 as [|r0 rows Hr0 Hrows IH]; [by intros _ ?%elem_of_nil|].
  rewrite fmap_cons, NoDup_cons. intros [Hfresh Hnd] Hin.
  rewrite historyOf_cons.
  apply elem_of_cons in Hin as [->|Hin].
  - destruct (cells r0 !! x) as [p|]; [|by apply historyOf_missing].
    rewrite fmap_cons, observedIn_cons, historyOf_missing by done.
    cbn [timestamp PriceHistory.price orElse].
    by rewrite Hr0, bool_decide_eq_true_2.
  - assert (date r ≠ date r0) as Hne.
    { intros E. apply Hfresh. rewrite <- E. by apply list_elem_of_fmap_2. }
    destruct (cells r0 !! x) as [p|]; [|by apply IH].
    rewrite fmap_cons, observedIn_cons, IH by done.
    cbn [timestamp]. rewrite Hr0.
    rewrite bool_decide_eq_false_2 by (intros [_ ?]; done).
    apply orElse_None_r.
Qed.

Lemma historiesOf_retailers R rows : (historiesOf R rows).*1 = R.
Proof.
  unfold historiesOf. rewrite <- list_fmap_compose.
  induction R as [|x R IH]; [done|]. simpl. by f_equal.
Qed.

Lemma historiesOf_observed R rows x d :
  observed (historiesOf R rows) x d
  = if bool_decide (x ∈ R)
    then observedIn ((λ e, (x, dateOf (timestamp e), PriceHistory.price e))
                       <$> historyOf rows x) x d
    else None.
Proof.
  unfold observed. induction R as [|y R IH].
  - by rewrite bool_decide_eq_false_2 by apply not_elem_of_nil.
  - cbn [historiesOf fmap list_fmap observations]. fold (historiesOf R rows).
    rewrite observedIn_app, IH. cbn [fst snd].
    destruct (decide (x = y)) as [->|Hxy].
    + rewrite (bool_decide_eq_true_2 (y ∈ y :: R)) by left.
      case_bool_decide; [apply orElse_idemp|done].
    + assert (observedIn ((λ e, (y, dateOf (timestamp e), PriceHistory.price e))
                            <$> historyOf rows y) x d = None) as ->.
      { apply observedIn_other_retailer, Forall_fmap, Forall_forall.
        intros e _. simpl. congruence. }
      rewrite orElse_None_r.
      assert (bool_decide (x ∈ y :: R) = bool_decide (x ∈ R)) as ->; [|done].
      apply bool_decide_ext. rewrite elem_of_cons. tauto.
Qed.

End Merger.

(** The scenario with gaps: A is carried from the 1st to the 2nd, B from the
    2nd to the 3rd, and B has nothing on the 1st. *)
Example merge_gappyHistory :
  merge gappyHistory
  = [ {| date := "2024-01-01"; cells := {[ "A" := 100%Q ]} |};
      {| date := "2024-01-02"; cells := {[ "A" := 100%Q; "B" := 90%Q ]} |};
      {| date := "2024-01-03"; cells := {[ "A" := 110%Q; "B" := 90%Q ]} |} ].
Proof. by vm_compute. Qed.

(** C8. Forward fill looks back only.  Take a row of the merged series and
    a retailer with no observation on the row's date.  If the cell holds a
    price, that price was observed for the retailer on a strictly earlier
    date, and the retailer has no observation between that date and the
    row's; if the retailer has no observation on any strictly earlier
    date, the cell is missing. *)
Theorem forward_fill_looks_back_only
    (allHistory : list (string * list entry)) (r : row) (retailer : string) :
  r ∈ merge allHistory →
  observed allHistory retailer (date r) = None →
  (∀ p, cells r !! retailer = Some p →
        ∃ d', earlier d' (date r)
          ∧ observed allHistory retailer d' = Some p
          ∧ ∀ d'', earlier d' d'' → earlier d'' (date r) →
                   observed allHistory retailer d'' = None)
  ∧ ((∀ d', earlier d' (date r) → observed allHistory retailer d' = None) →
     cells r !! retailer = None).
Proof.
  intros (pre & r0 & post & Hrows & Hdate & Hcells)%merge_row Hnone.
  pose proof (sorted_ascending _ (buildDateMap_keyed allHistory)) as Hasc.
  unfold ascending in Hasc. rewrite Hrows in Hasc.
  assert (∀ p, cells r !! retailer = Some p →
            ∃ d', earlier d' (date r)
              ∧ observed allHistory retailer d' = Some p
              ∧ ∀ d'', earlier d' d'' → earlier d'' (date r) →
                       observed allHistory retailer d'' = None) as Hback.
  { intros p. rewrite Hcells, Hnone. simpl.
    case_bool_decide as Hin; [|done].
    intros (pre1 & rj & pre2 & -> & Hrj & Hgap)%lastSeen_Some.
    assert (rj ∈ sorted (buildDateMap allHistory)) as Hrj_in.
    { rewrite Hrows. rewrite !elem_of_app, elem_of_cons. auto. }
    exists (date rj). rewrite Hdate. split; [|split].
    - eapply (StronglySorted_app_1_elem_of _ _ _ rj r0 Hasc);
        [rewrite elem_of_app, elem_of_cons; auto|left].
    - by rewrite <- (table_cell allHistory rj retailer Hrj_in).
    - intros d'' Hlo Hhi.
      destruct (observed allHistory retailer d'') as [q|] eqn:Hobs; [|done].
      exfalso.
      apply table_row_of_observation in Hobs as (r'' & Hr'' & <- & Hc'').
      rewrite Hrows in Hr''.
      rewrite <- app_assoc in Hr'', Hasc. cbn [app] in Hr'', Hasc.
      apply elem_of_app in Hr'' as [Hr''|Hr''].
      { apply (earlier_asym _ _ Hlo).
        eapply (StronglySorted_app_1_elem_of _ _ _ r'' rj Hasc); [done|left]. }
      apply StronglySorted_app_1_r in Hasc.
      apply elem_of_cons in Hr'' as [->|Hr'']; [by apply earlier_irrefl in Hlo|].
      apply StronglySorted_cons in Hasc as [_ Hasc].
      apply elem_of_app in Hr'' as [Hr''|Hr''].
      { rewrite Forall_forall in Hgap. rewrite (Hgap _ Hr'') in Hc''. done. }
      apply elem_of_cons in Hr'' as [->|Hr'']; [by apply earlier_irrefl in Hhi|].
      apply StronglySorted_app_1_r in Hasc.
      apply StronglySorted_cons in Hasc as [Hall _].
      rewrite Forall_forall in Hall. by apply (earlier_asym _ _ Hhi), Hall. }
  split; [done|].
  intros Hno. destruct (cells r !! retailer) as [p|] eqn:E; [|done].
  destruct (Hback p eq_refl) as (d' & Hd' & Hobs & _).
  by rewrite (Hno d' Hd') in Hobs.
Qed.

(** C10. Forward fill writes to missing cells only: where a retailer has an
    observation on a date, the merged series has a row for that date, and
    the row holds the observed price (the one placed last when several
    observations share the date). *)
Theorem observed_price_is_kept
    (allHistory : list (string * list entry)) (retailer d : string) (p : Q) :
  observed allHistory retailer d = Some p →
  (∃ r, r ∈ merge allHistory ∧ date r = d)
  ∧ (∀ r, r ∈ merge allHistory → date r = d → cells r !! retailer = Some p).
Proof.
  intros Hobs. split.
  - apply (observed_date allHistory) in Hobs.
    apply merge_row_of_date, list_elem_of_fmap in Hobs as (r & -> & Hr). by exists r.
  - intros r (pre & r0 & post & _ & _ & Hcells)%merge_row <-.
    by rewrite Hcells, Hobs.
Qed.

(** C9. On dense input the merge changes nothing.  When every retailer has
    an observation on every observation date, the fill pass leaves the
    date-indexed table as it is: the merged series is the table sorted by
    date, with one row per observation date in strictly ascending order and
    in every row each retailer's observed price (the price of its one
    observation on that date, when it has just one).  Merging the merged
    series again, read back as one history per retailer, returns it
    unchanged. *)
Theorem merge_dense_unchanged (allHistory : list (string * list entry)) :
  dense allHistory →
  merge allHistory = sorted (buildDateMap allHistory)
  ∧ ascending (merge allHistory)
  ∧ (∀ d, d ∈ date <$> merge allHistory ↔ d ∈ observationDates allHistory)
  ∧ (∀ r retailer, r ∈ merge allHistory →
       cells r !! retailer = observed allHistory retailer (date r))
  ∧ (∀ r retailer p, r ∈ merge allHistory →
       (retailer, date r, p) ∈ observations allHistory →
       (∀ q, (retailer, date r, q) ∈ observations allHistory → q = p) →
       cells r !! retailer = Some p)
  ∧ merge (historiesOf allHistory.*1 (merge allHistory)) = merge allHistory.
Proof.
  intros Hdense.
  assert (merge allHistory = sorted (buildDateMap allHistory)) as Heq.
  { unfold merge. apply fillForward_full, Forall_forall. intros r Hr x Hx.
    rewrite (table_cell allHistory r x Hr). apply Hdense; [done|].
    apply table_row_of_date. by exists r. }
  split; [done|]. split; [apply merge_ascending|].
  split; [apply merge_row_of_date|].
  assert (∀ r x, r ∈ merge allHistory →
                 cells r !! x = observed allHistory x (date r)) as Hcell.
  { intros r x. rewrite Heq. apply table_cell. }
  split; [done|]. split.
  { intros r x p Hr Hin Huniq. rewrite (Hcell r x Hr).
    by apply observedIn_unique. }
  unfold merge at 1. rewrite historiesOf_retailers.
  rewrite (buildDateMap_ext _ allHistory); [done|].
  intros x d. rewrite historiesOf_observed.
  assert (Forall (λ r, dateOf (date r) = date r) (merge allHistory)) as Hfix.
  { apply Forall_forall. intros r Hr.
    apply (observationDates_dateOf allHistory), merge_row_of_date.
    by apply list_elem_of_fmap_2. }
  case_bool_decide as Hx.
  - destruct (decide (d ∈ date <$> merge allHistory)) as [Hd|Hd].
    + apply list_elem_of_fmap in Hd as (r & -> & Hr).
      rewrite historyOf_cell; [by apply Hcell|done| |done].
      apply ascending_NoDup, merge_ascending.
    + rewrite historyOf_missing by done.
      destruct (observed allHistory x d) as [p|] eqn:E; [|done].
      destruct Hd. by eapply merge_row_of_date, observed_date.
  - destruct (observed allHistory x d) as [p|] eqn:E; [|done].
    destruct Hx. by eapply observed_retailer.
Qed.

Lemma forward_fill_looks_back_only_witness :
  let r := {| date := "2024-01-02"; cells := {[ "A" := 100%Q; "B" := 90%Q ]} |} in
  r ∈ merge gappyHistory
  ∧ (∀ p, cells r !! "A" = Some p →
          ∃ d', earlier d' (date r)
            ∧ observed gappyHistory "A" d' = Some p
            ∧ ∀ d'', earlier d' d'' → earlier d'' (date r) →
                     observed gappyHistory "A" d'' = None)
  ∧ ((∀ d', earlier d' (date r) → observed gappyHistory "A" d' = None) →
     cells r !! "A" = None).
Proof.
  intros r.
  assert (r ∈ merge gappyHistory) as Hr.
  { apply list_elem_of_In. vm_compute. right. left. reflexivity. }
  split; [exact Hr|].
  apply (forward_fill_looks_back_only gappyHistory r "A" Hr).
  vm_compute. reflexivity.
Defined.

Lemma observed_price_is_kept_witness :
  (∃ r, r ∈ merge gappyHistory ∧ date r = "2024-01-03")
  ∧ (∀ r, r ∈ merge gappyHistory → date r = "2024-01-03" →
          cells r !! "A" = Some 110%Q).
Proof.
  apply (observed_price_is_kept gappyHistory "A" "2024-01-03" 110%Q).
  vm_compute. reflexivity.
Defined.

Lemma merge_dense_unchanged_witness :
  merge denseHistory = sorted (buildDateMap denseHistory)
  ∧ ascending (merge denseHistory)
  ∧ (∀ d, d ∈ date <$> merge denseHistory ↔ d ∈ observationDates denseHistory)
  ∧ (∀ r retailer, r ∈ merge denseHistory →
       cells r !! retailer = observed denseHistory retailer (date r))
  ∧ (∀ r retailer p, r ∈ merge denseHistory →
       (retailer, date r, p) ∈ observations denseHistory →
       (∀ q, (retailer, date r, q) ∈ observations denseHistory → q = p) →
       cells r !! retailer = Some p)
  ∧ merge (historiesOf denseHistory.*1 (merge denseHistory)) = merge denseHistory.
Proof.
  apply (merge_dense_unchanged denseHistory).
  intros retailer d Hr Hd.
  apply list_elem_of_In in Hr, Hd. vm_compute in Hr, Hd.
  destruct Hr as [<-|[<-|[]]]; destruct Hd as [<-|[<-|[<-|[<-|[]]]]];
    vm_compute; eauto.
Defined.

(** * Further properties of the Identity Resolver *)

Section ResolverMore.

Implicit Types (c : ascii) (s w : string) (p : RawListing).

Lemma keepFirst_idemp (l : list RawListing) : ∀ seen,
  keepFirst seen (keepFirst seen l) = keepFirst seen l.
Proof.
  induction l as [|p l IH]; intros seen; [done|]. simpl.
  case_bool_decide as Hp; [apply IH|].
  simpl. rewrite bool_decide_eq_false_2 by done. by rewrite IH.
Qed.

Lemma keepFirst_NoDup_id (l : list RawListing) : ∀ seen,
  NoDup (getProductIdentityKey <$> l) →
  (∀ p, p ∈ l → getProductIdentityKey p ∉ seen) →
  keepFirst seen l = l.
Proof.
  induction l as [|p l IH]; intros seen Hnd Hfresh; [done|].
  rewrite fmap_cons, NoDup_cons in Hnd. destruct Hnd as [Hp Hnd]. simpl.
  rewrite bool_decide_eq_false_2 by (apply Hfresh; left). f_equal.
  apply IH; [done|]. intros q Hq. apply not_elem_of_union. split.
  - intros E%elem_of_singleton. apply Hp. rewrite <- E. by apply list_elem_of_fmap_2.
  - apply Hfresh. by right.
Qed.

Lemma toLowerCase_app s1 s2 :
  Js.toLowerCase (s1 +:+ s2) = Js.toLowerCase s1 +:+ Js.toLowerCase s2.
Proof.
  induction s1 as [|c s1 IH]; [done|].
  change (String c s1 +:+ s2) with (String c (s1 +:+ s2)). simpl. by rewrite IH.
Qed.

Lemma app_cons_string c s t : String c s +:+ t = String c (s +:+ t).
Proof. reflexivity. Qed.

(** A string free of class characters is a single field. *)
Lemma split_free cls w :
  allIn (λ c, negb (cls c)) w = true → Js.split cls w = [w].
Proof.
  unfold allIn. induction w as [|c w IH]; [done|]. simpl.
  intros [Hc Hw]%andb_true_iff. apply negb_true_iff in Hc. rewrite Hc.
  by rewrite (IH Hw).
Qed.

(** Appending a separator and one more word adds that word to the fields
    and otherwise changes at most empty fields. *)
Lemma split_append_word cls sep w s :
  cls sep = true → w ≠ "" → allIn (λ c, negb (cls c)) w = true →
  ∃ hd tl tl', Js.split cls s = hd :: tl
    ∧ Js.split cls (s +:+ String sep w) = hd :: tl'
    ∧ ∀ f : string → bool, f "" = false →
        List.filter f tl' = List.filter f tl ++ List.filter f [w].
Proof.
  intros Hsep Hne Hfree.
  assert (Js.startsWith cls w = false) as Hstart.
  { destruct w as [|c w]; [done|]. unfold allIn in Hfree. simpl in *.
    apply andb_true_iff in Hfree as [Hc _]. by apply negb_true_iff in Hc. }
  induction s as [|c s IH].
  - exists "", [], [w]. split; [done|]. split; [|done].
    change ("" +:+ String sep w) with (String sep w). simpl.
    by rewrite Hsep, Hstart, (split_free cls w Hfree).
  - destruct IH as (hd & tl & tl' & Hs & Hst & Hf).
    rewrite app_cons_string. simpl. destruct (cls c) eqn:Hc.
    + destruct s as [|c' s].
      * change ("" +:+ String sep w) with (String sep w) in *. simpl in *.
        rewrite Hsep in *. rewrite Hstart in Hst.
        rewrite Hstart, (split_free cls w Hfree).
        exists "", [""], [w]. split; [done|]. split; [done|].
        intros f Hf0. simpl. by rewrite Hf0.
      * rewrite app_cons_string in *.
        change (Js.startsWith cls (String c' (s +:+ String sep w)))
          with (Js.startsWith cls (String c' s)).
        destruct (Js.startsWith cls (String c' s)).
        -- by exists hd, tl, tl'.
        -- exists "", (hd :: tl), (hd :: tl'). rewrite Hs, Hst.
           split; [done|]. split; [done|]. intros f Hf0. simpl.
           rewrite (Hf f Hf0). by destruct (f hd).
    + rewrite Hs, Hst. by exists (String c hd), tl, tl'.
Qed.

Lemma filter_split_append_word cls sep w s (f : string → bool) :
  cls sep = true → w ≠ "" → allIn (λ c, negb (cls c)) w = true → f "" = false →
  List.filter f (Js.split cls (s +:+ String sep w))
  = List.filter f (Js.split cls s) ++ List.filter f [w].
Proof.
  intros Hsep Hne Hfree Hf0.
  destruct (split_append_word cls sep w s Hsep Hne Hfree)
    as (hd & tl & tl' & -> & -> & Hf).
  simpl. rewrite (Hf f Hf0). by destruct (f hd).
Qed.

(** How [span] goes on into an appended string. *)
Lemma span_split cls s : s = (Js.span cls s).1 +:+ (Js.span cls s).2.
Proof.
  induction s as [|c s IH]; [done|]. simpl. destruct (cls c); [|done].
  destruct (Js.span cls s) as [q r]. simpl in *. by rewrite app_cons_string, <- IH.
Qed.

Lemma span_app_rest cls s t :
  (Js.span cls s).2 ≠ "" →
  Js.span cls (s +:+ t) = ((Js.span cls s).1, (Js.span cls s).2 +:+ t).
Proof.
  induction s as [|c s IH]; [done|]. rewrite app_cons_string. simpl.
  destruct (cls c); [|done].
  destruct (Js.span cls s) as [q r]. simpl in *. intros Hr. by rewrite (IH Hr).
Qed.

Lemma span_app_all cls s t :
  (Js.span cls s).2 = "" →
  Js.span cls (s +:+ t) = (s +:+ (Js.span cls t).1, (Js.span cls t).2).
Proof.
  induction s as [|c s IH].
  - intros _. change ("" +:+ t) with t. by destruct (Js.span cls t).
  - rewrite app_cons_string. simpl. destruct (cls c); [|done].
    destruct (Js.span cls s) as [q r]. simpl in *. intros Hr. by rewrite (IH Hr).
Qed.


Lemma string_app_nil_r s : s +:+ "" = s.
Proof. induction s as [|c s IH]; [done|]. by rewrite app_cons_string, IH. Qed.

(** [storageAt], with the two spans named by projections. *)
Lemma storageAt_unfold s :
  storageAt s
  = if Js.truthy (Js.span Js.isDigit s).1 then
      match (Js.span Js.isWhiteSpace (Js.span Js.isDigit s).2).2 with
      | String c1 (String c2 _) =>
          if isGT c1 && isB c2
          then Some ((Js.span Js.isDigit s).1
                     +:+ (Js.span Js.isWhiteSpace (Js.span Js.isDigit s).2).1
                     +:+ String c1 (String c2 ""))
          else None
      | _ => None
      end
    else None.
Proof.
  unfold storageAt. destruct (Js.span Js.isDigit s) as [ds r1]. simpl.
  by destruct (Js.span Js.isWhiteSpace r1) as [ws r2].
Qed.


Lemma span_none cls w : Js.startsWith cls w = false → Js.span cls w = ("", w).
Proof. destruct w as [|c w]; [done|]. simpl. by intros ->. Qed.

Lemma storageAt_append s w :
  inertWord w = true → storageAt (s +:+ String " " w) = storageAt s.
Proof.
  unfold inertWord. intros [[Hws Hunit]%andb_true_iff _]%andb_true_iff.
  apply negb_true_iff in Hws, Hunit.
  assert (Js.span Js.isWhiteSpace (String " " w) = (" ", w)) as Hspan_t.
  { simpl. by rewrite (span_none _ _ Hws). }
  assert (match w with
          | String c1 (String c2 _) =>
              if isGT c1 && isB c2 then Some (A:=string) "" else None
          | _ => None
          end = None) as Hw.
  { destruct w as [|c1 [|c2 w]]; [done..|]. by rewrite Hunit. }
  rewrite !storageAt_unfold.
  destruct (decide ((Js.span Js.isDigit s).2 = "")) as [Hd|Hd].
  - rewrite (span_app_all _ _ _ Hd). simpl.
    pose proof (span_split Js.isDigit s) as Hs. rewrite Hd, string_app_nil_r in Hs.
    rewrite <- Hs, Hd, string_app_nil_r. simpl.
    rewrite (span_none _ _ Hws). simpl.
    destruct (Js.truthy s); [|done].
    destruct w as [|c1 [|c2 w]]; [done..|]. by rewrite Hunit.
  - rewrite (span_app_rest _ _ _ Hd). cbn [fst snd].
    destruct (Js.truthy (Js.span Js.isDigit s).1); [|done].
    set (r1 := (Js.span Js.isDigit s).2).
    destruct (decide ((Js.span Js.isWhiteSpace r1).2 = "")) as [Hr|Hr].
    + rewrite (span_app_all _ _ _ Hr), Hr, Hspan_t. cbn [fst snd].
      destruct w as [|c1 [|c2 w]]; [done..|]. by rewrite Hunit.
    + rewrite (span_app_rest _ _ _ Hr). cbn [fst snd].
      destruct ((Js.span Js.isWhiteSpace r1).2) as [|c1 [|c2 r3]]; [done| |done].
      rewrite app_cons_string. change ("" +:+ String " " w) with (String " " w).
      by destruct (isGT c1).
Qed.

Lemma storageMatch_append s w :
  inertWord w = true → storageMatch (s +:+ String " " w) = storageMatch s.
Proof.
  intros Hw. induction s as [|c s IH].
  - change ("" +:+ String " " w) with (String " " w).
    pose proof (storageAt_append "" w Hw) as Hat.
    change ("" +:+ String " " w) with (String " " w) in Hat.
    cbn [storageMatch]. rewrite Hat.
    unfold inertWord in Hw. apply andb_true_iff in Hw as [_ Hn%bool_decide_eq_true].
    by rewrite Hn.
  - rewrite app_cons_string. cbn [storageMatch].
    rewrite <- app_cons_string, (storageAt_append _ _ Hw), IH. done.
Qed.


Lemma colour_word_facts w :
  w ∈ COLOR_WORDS →
  inertWord w = true ∧ w ≠ "" ∧ allIn (λ c, negb (isNameSeparator c)) w = true
  ∧ isCoreWord w = false ∧ Js.includes TIER_WORDS w = false.
Proof.
  unfold COLOR_WORDS. intros Hw.
  repeat (apply elem_of_cons in Hw as [->|Hw]; [by vm_compute|]).
  by apply elem_of_nil in Hw.
Qed.

Lemma allIn_app cls s1 s2 : allIn cls (s1 +:+ s2) = allIn cls s1 && allIn cls s2.
Proof.
  unfold allIn. induction s1 as [|c s1 IH]; [done|].
  rewrite app_cons_string. simpl. by rewrite IH, andb_assoc.
Qed.

Lemma removeAll_app cls s1 s2 :
  Js.removeAll cls (s1 +:+ s2) = Js.removeAll cls s1 +:+ Js.removeAll cls s2.
Proof.
  induction s1 as [|c s1 IH]; [done|]. rewrite app_cons_string. simpl.
  rewrite IH. by destruct (cls c).
Qed.

Lemma removeAll_allIn cls s : allIn cls s = true → Js.removeAll cls s = "".
Proof.
  unfold allIn. induction s as [|c s IH]; [done|]. simpl.
  intros [-> Hs]%andb_true_iff. by apply IH.
Qed.

Lemma removeAll_none cls s :
  allIn (λ c, negb (cls c)) s = true → Js.removeAll cls s = s.
Proof.
  unfold allIn. induction s as [|c s IH]; [done|]. simpl.
  intros [Hc Hs]%andb_true_iff. apply negb_true_iff in Hc. by rewrite Hc, IH.
Qed.

Lemma allIn_impl (P Q : ascii → bool) s :
  (∀ c, P c = true → Q c = true) → allIn P s = true → allIn Q s = true.
Proof.
  unfold allIn. intros HPQ. induction s as [|c s IH]; [done|]. simpl.
  intros [Hc Hs]%andb_true_iff. by rewrite (HPQ _ Hc), IH.
Qed.

(** What a storage match is made of. *)
Lemma storageAt_Some s m :
  storageAt s = Some m →
  ∃ ds ws c1 c2,
    m = ds +:+ ws +:+ String c1 (String c2 "")
    ∧ ds ≠ "" ∧ allIn Js.isDigit ds = true ∧ allIn Js.isWhiteSpace ws = true
    ∧ isGT c1 = true ∧ isB c2 = true
    ∧ ∀ P : ascii → bool, allIn P s = true → P c1 = true ∧ P c2 = true.
Proof.
  rewrite storageAt_unfold.
  pose proof (span_split Js.isDigit s) as Hs.
  pose proof (span_allIn Js.isDigit s) as Hds.
  set (ds := (Js.span Js.isDigit s).1) in *.
  set (r1 := (Js.span Js.isDigit s).2) in *.
  pose proof (span_split Js.isWhiteSpace r1) as Hr1.
  pose proof (span_allIn Js.isWhiteSpace r1) as Hws.
  set (ws := (Js.span Js.isWhiteSpace r1).1) in *.
  set (r2 := (Js.span Js.isWhiteSpace r1).2) in *.
  destruct (Js.truthy ds) eqn:Hne; [|done].
  destruct r2 as [|c1 [|c2 r3]]; [done..|].
  destruct (isGT c1 && isB c2) eqn:E; [|done].
  apply andb_true_iff in E as [E1 E2]. intros [= <-].
  exists ds, ws, c1, c2. split; [done|]. split; [by destruct ds|].
  do 4 (split; [done|]).
  intros P. rewrite Hs, Hr1, !allIn_app. unfold allIn at 3. simpl.
  intros [_ [_ [-> [-> _]%andb_true_iff]%andb_true_iff]%andb_true_iff]%andb_true_iff.
  done.
Qed.

Lemma storageMatch_Some s m :
  storageMatch s = Some m →
  ∃ ds ws c1 c2,
    m = ds +:+ ws +:+ String c1 (String c2 "")
    ∧ ds ≠ "" ∧ allIn Js.isDigit ds = true ∧ allIn Js.isWhiteSpace ws = true
    ∧ isGT c1 = true ∧ isB c2 = true
    ∧ ∀ P : ascii → bool, allIn P s = true → P c1 = true ∧ P c2 = true.
Proof.
  induction s as [|c s IH]; cbn [storageMatch].
  - destruct (storageAt "") eqn:E; [|done]. intros [= <-]. by apply storageAt_Some.
  - destruct (storageAt (String c s)) eqn:E.
    + intros [= <-]. by apply storageAt_Some.
    + intros (ds & ws & c1 & c2 & ? & ? & ? & ? & ? & ? & HP)%IH.
      exists ds, ws, c1, c2. do 6 (split; [done|]).
      intros P [_ Hs]%andb_true_iff. by apply HP.
Qed.

Lemma toLowerChar_idemp c : Js.toLowerChar (Js.toLowerChar c) = Js.toLowerChar c.
Proof. by destruct c as [[] [] [] [] [] [] [] []]. Qed.

Lemma toLowerCase_idemp s : Js.toLowerCase (Js.toLowerCase s) = Js.toLowerCase s.
Proof. induction s as [|c s IH]; [done|]. simpl. by rewrite toLowerChar_idemp, IH. Qed.

Lemma toLowerCase_lowered s :
  allIn (λ c, Ascii.eqb (Js.toLowerChar c) c) (Js.toLowerCase s) = true.
Proof.
  unfold allIn. induction s as [|c s IH]; [done|]. simpl.
  by rewrite toLowerChar_idemp, Ascii.eqb_refl, IH.
Qed.

Lemma unit_letters c1 c2 :
  isGT c1 = true → isB c2 = true →
  Ascii.eqb (Js.toLowerChar c1) c1 = true → Ascii.eqb (Js.toLowerChar c2) c2 = true →
  (c1 = "g" ∨ c1 = "t")%char ∧ c2 = "b"%char.
Proof.
  unfold isGT, isB. rewrite !orb_true_iff.
  intros [[[E|E]|E]|E] [F|F] H1 H2;
    apply Ascii.eqb_eq in E, F; subst; try done; auto.
Qed.

Lemma digit_not_space c : Js.isDigit c = true → negb (Js.isWhiteSpace c) = true.
Proof. by destruct c as [[] [] [] [] [] [] [] []]. Qed.

Lemma storagePart_kind p : storagePart p ≠ "" → storageKind (storagePart p).
Proof.
  intros Hne. unfold storageKind, storagePart in *.
  destruct (storageMatch (Js.toLowerCase (name p))) as [m|] eqn:E; [|done].
  apply storageMatch_Some in E as (ds & ws & c1 & c2 & -> & Hds & Hall & Hws & H1 & H2 & HP).
  destruct (HP _ (toLowerCase_lowered (name p))) as [L1 L2].
  destruct (unit_letters c1 c2 H1 H2 L1 L2) as [Hc1 ->].
  exists ds. split; [done|]. split; [done|].
  rewrite !removeAll_app, (removeAll_allIn _ ws Hws).
  rewrite (removeAll_none _ ds) by (eapply allIn_impl; [apply digit_not_space|done]).
  destruct Hc1 as [-> | ->]; [left|right]; done.
Qed.

End ResolverMore.

(** X1. Deduplication is stable: resolving an already resolved list changes
    nothing, and a list whose identity keys are pairwise distinct is
    returned as it is. *)
Theorem resolve_idempotent (listings : list RawListing) :
  resolve (resolve listings) = resolve listings
  ∧ (NoDup (getProductIdentityKey <$> listings) → resolve listings = listings).
Proof.
  rewrite !resolve_keepFirst. split; [apply keepFirst_idemp|].
  intros Hnd. apply keepFirst_NoDup_id; [done|]. intros p _. apply not_elem_of_empty.
Qed.

(** X2. Colour does not distinguish products: two listings without model
    code, the name of one being the name of the other followed by a space
    and a colour word (in any letter case), have the same identity key. *)
Theorem colour_does_not_change_key (p q : RawListing) (colour : string) :
  hasModel p = false → hasModel q = false →
  Js.toLowerCase colour ∈ COLOR_WORDS →
  name q = name p +:+ String " " colour →
  getProductIdentityKey q = getProductIdentityKey p.
Proof.
  intros Hp Hq Hcol Hname.
  destruct (colour_word_facts _ Hcol) as (Hinert & Hne & Hfree & Hcore & Htier).
  unfold getProductIdentityKey. rewrite Hp, Hq.
  assert (Js.toLowerCase (name q)
          = Js.toLowerCase (name p) +:+ String " " (Js.toLowerCase colour)) as Hlow.
  { by rewrite Hname, toLowerCase_app. }
  assert (corePart q = corePart p) as ->.
  { unfold corePart, nameWords. rewrite Hlow.
    rewrite (filter_split_append_word isNameSeparator " " _ _ isCoreWord) by done.
    simpl. by rewrite Hcore, app_nil_r. }
  assert (tierPart q = tierPart p) as ->.
  { unfold tierPart, tierWords, nameWords. rewrite Hlow.
    rewrite (filter_split_append_word isNameSeparator " " _ _ (Js.includes TIER_WORDS))
      by done.
    simpl. by rewrite Htier, app_nil_r. }
  assert (storagePart q = storagePart p) as ->; [|done].
  unfold storagePart. by rewrite Hlow, storageMatch_append.
Qed.

Lemma colour_does_not_change_key_witness :
  getProductIdentityKey (mk "B" "Widget Pro 256GB Black" None)
  = getProductIdentityKey (mk "A" "Widget Pro 256GB" None).
Proof.
  apply (colour_does_not_change_key (mk "A" "Widget Pro 256GB" None)
           (mk "B" "Widget Pro 256GB Black" None) "Black").
  - reflexivity.
  - reflexivity.
  - vm_compute. left.
  - reflexivity.
Defined.

(** X3. The storage part of a name-derived key is normalized: it is empty,
    or a non-empty run of digits followed by [gb] or [tb], in lower case
    and without the white space the name may have between the two. *)
Theorem storage_part_format (p : RawListing) :
  storagePart p = ""
  ∨ ∃ ds, ds ≠ "" ∧ allIn Js.isDigit ds = true
          ∧ (storagePart p = ds +:+ "gb" ∨ storagePart p = ds +:+ "tb").
Proof.
  destruct (decide (storagePart p = "")) as [?|Hne]; [by left|right].
  by apply storagePart_kind.
Qed.

(** * Further properties of the Retailer Matcher *)

Section MatcherMore.

Import RetailerMatcher.

Implicit Types (c : ascii) (s w : string) (variant p q : RawListing).

(** A word free of class characters, followed by a separator and a text
    that does not begin with one, is the first field. *)
Lemma split_word_then cls c w rest :
  cls c = true → allIn (λ x, negb (cls x)) w = true →
  Js.startsWith cls rest = false →
  Js.split cls (w +:+ String c rest) = w :: Js.split cls rest.
Proof.
  intros Hc Hw Hrest. unfold allIn in Hw. induction w as [|x w IH].
  - change ("" +:+ String c rest) with (String c rest). simpl. by rewrite Hc, Hrest.
  - simpl in Hw. apply andb_true_iff in Hw as [Hx Hw]. apply negb_true_iff in Hx.
    rewrite app_cons_string. simpl. by rewrite Hx, (IH Hw).
Qed.


Lemma plainWord_start cls w rest :
  plainWord cls w → Js.startsWith cls (w +:+ rest) = false.
Proof.
  intros [Hne Hw]. destruct w as [|x w]; [done|]. unfold allIn in Hw. simpl in *.
  apply andb_true_iff in Hw as [Hx _]. by apply negb_true_iff in Hx.
Qed.

Lemma join_cons_cons sep w w' (ws : list string) :
  Js.join sep (w :: w' :: ws) = w +:+ sep +:+ Js.join sep (w' :: ws).
Proof. reflexivity. Qed.

Lemma join_start cls c w (ws : list string) :
  plainWord cls w → Js.startsWith cls (Js.join (String c "") (w :: ws)) = false.
Proof.
  intros Hw. destruct ws as [|w' ws].
  - rewrite <- (string_app_nil_r w). by apply plainWord_start.
  - rewrite join_cons_cons. by apply plainWord_start.
Qed.

(** Splitting undoes joining, for plain words. *)
Lemma split_join cls c (ws : list string) :
  cls c = true → Forall (plainWord cls) ws → ws ≠ [] →
  Js.split cls (Js.join (String c "") ws) = ws.
Proof.
  intros Hc Hall Hne. induction Hall as [|w ws Hw Hws IH]; [done|].
  destruct ws as [|w' ws].
  - apply split_free, Hw.
  - rewrite join_cons_cons.
    change (String c "" +:+ Js.join (String c "") (w' :: ws))
      with (String c (Js.join (String c "") (w' :: ws))).
    rewrite split_word_then; [|done|apply Hw|].
    + by rewrite IH.
    + inversion Hws; subst. by apply join_start.
Qed.

Lemma join_empty cls c (ws : list string) :
  Forall (plainWord cls) ws → Js.join (String c "") ws = "" → ws = [].
Proof.
  intros Hall. destruct Hall as [|w ws [Hne Hw] _]; [done|].
  destruct ws as [|w' ws]; [done|].
  rewrite join_cons_cons. by destruct w.
Qed.

Lemma join_inj cls c (ws1 ws2 : list string) :
  cls c = true → Forall (plainWord cls) ws1 → Forall (plainWord cls) ws2 →
  Js.join (String c "") ws1 = Js.join (String c "") ws2 → ws1 = ws2.
Proof.
  intros Hc H1 H2 E.
  destruct ws1 as [|a ws1].
  { symmetry. eapply join_empty; [done|]. by rewrite <- E. }
  destruct ws2 as [|b ws2].
  { eapply join_empty; [done|]. by rewrite E. }
  rewrite <- (split_join cls c (a :: ws1)), <- (split_join cls c (b :: ws2)) by done.
  by rewrite E.
Qed.


Lemma tier_word_plain w : w ∈ TIER_WORDS → plainWord isComma w.
Proof.
  unfold TIER_WORDS. rewrite elem_of_list_to_set. intros Hw.
  repeat (apply elem_of_cons in Hw as [->|Hw]; [by split|]).
  by apply elem_of_nil in Hw.
Qed.

Lemma extractTierWords_vocabulary (n : string) w :
  w ∈ extractTierWords n → w ∈ TIER_WORDS.
Proof.
  unfold extractTierWords. rewrite elem_of_list_to_set, filter_elem_of.
  intros [_ Hw]. by apply bool_decide_eq_true in Hw.
Qed.

Lemma tierStr_inj (X Y : gset string) :
  X ⊆ TIER_WORDS → Y ⊆ TIER_WORDS → tierStr X = tierStr Y → X = Y.
Proof.
  intros HX HY E. unfold tierStr in E.
  assert (∀ Z : gset string, Z ⊆ TIER_WORDS →
            Forall (plainWord isComma) (Js.sort (elements Z))) as Hplain.
  { intros Z HZ. apply sort_Forall, Forall_forall.
    intros w Hw%elem_of_elements. by apply tier_word_plain, HZ. }
  apply (join_inj isComma) in E; [|done|by apply Hplain..].
  apply set_eq. intros w. rewrite <- !elem_of_elements.
  unfold Js.sort in E.
  rewrite <- (merge_sort_Permutation String.le (elements X)), E.
  by rewrite (merge_sort_Permutation String.le (elements Y)).
Qed.

Lemma tiersAgree_iff variant p :
  tiersAgree variant p = true
  ↔ extractTierWords (name variant) = extractTierWords (name p).
Proof.
  split; [|apply tiersAgree_intro].
  unfold tiersAgree. intros E%String.eqb_eq.
  apply tierStr_inj; [..|done]; intros w; apply extractTierWords_vocabulary.
Qed.

Lemma filter_sublist {A} (f : A → bool) (l : list A) : List.filter f l `sublist_of` l.
Proof.
  induction l as [|x l IH]; simpl; [constructor|].
  destruct (f x); [by apply sublist_skip|by apply sublist_cons].
Qed.

End MatcherMore.

(** X4. Strategy 2 never accepts across tiers or without the identifying
    words: a candidate it accepts has exactly the tier words of the chosen
    variant, and holds every key word of the variant that is longer than
    three characters or contains a digit. *)
Theorem fuzzy_match_respects_hard_filters (variant p : RawListing) :
  RetailerMatcher.fuzzyMatch variant p = true →
  RetailerMatcher.extractTierWords (name variant)
  = RetailerMatcher.extractTierWords (name p)
  ∧ ∀ w, w ∈ RetailerMatcher.extractKeyWords (name variant) →
         RetailerMatcher.isSignificant w = true →
         w ∈ RetailerMatcher.extractKeyWords (name p).
Proof.
  unfold RetailerMatcher.fuzzyMatch.
  destruct (RetailerMatcher.tiersAgree variant p) eqn:Ht; [|done].
  destruct (RetailerMatcher.noSignificantMissing variant p) eqn:Hs; [|done].
  intros _. split; [by apply tiersAgree_iff|by apply noSignificantMissing_iff].
Qed.

Lemma fuzzy_match_respects_hard_filters_witness :
  RetailerMatcher.extractTierWords "Galaxy S24 Ultra 5G"
  = RetailerMatcher.extractTierWords "Samsung Galaxy S24 Ultra 5G 256GB Titanium Grey"
  ∧ ∀ w, w ∈ RetailerMatcher.extractKeyWords "Galaxy S24 Ultra 5G" →
         RetailerMatcher.isSignificant w = true →
         w ∈ RetailerMatcher.extractKeyWords
               "Samsung Galaxy S24 Ultra 5G 256GB Titanium Grey".
Proof.
  apply (fuzzy_match_respects_hard_filters
           (mk "A" "Galaxy S24 Ultra 5G" None)
           (mk "B" "Samsung Galaxy S24 Ultra 5G 256GB Titanium Grey" None)).
  reflexivity.
Defined.

(** X5. Strategy 1 is exact and, once it finds anything, final: when the
    chosen variant has a model code and some listing carries the same code
    (letter case aside), the result holds exactly the listings with a
    non-blank model field equal to the chosen one up to letter case, and
    each of them has the identity key of the chosen variant. *)
Theorem model_strategy_exact (variant : RawListing) (allProducts : list RawListing) :
  hasModel variant = true →
  (∃ p, p ∈ allProducts ∧ RetailerMatcher.modelMatch variant p = true) →
  ∀ q, q ∈ RetailerMatcher.handleVariantSelected variant allProducts ↔
       q ∈ allProducts ∧ hasModel q = true
       ∧ Js.toLowerCase (default "" (model q)) = Js.toLowerCase (default "" (model variant))
       ∧ getProductIdentityKey q = getProductIdentityKey variant.
Proof.
  intros Hv (p & Hp & Hm) q. unfold RetailerMatcher.handleVariantSelected.
  rewrite Hv.
  assert (p ∈ List.filter (RetailerMatcher.modelMatch variant) allProducts) as Hin.
  { by apply filter_elem_of. }
  destruct (List.filter (RetailerMatcher.modelMatch variant) allProducts)
    as [|x l] eqn:E; [by apply elem_of_nil in Hin|].
  cbn [length Nat.eqb]. rewrite <- E, filter_elem_of.
  unfold RetailerMatcher.modelMatch. split.
  - intros [Hq Hmq]. destruct (hasModel q) eqn:Hhq; [|done].
    apply String.eqb_eq in Hmq. do 3 (split; [done|]).
    unfold getProductIdentityKey. by rewrite Hhq, Hv, Hmq.
  - intros (Hq & -> & Hmq & _). split; [done|]. by apply String.eqb_eq.
Qed.

Lemma model_strategy_exact_witness :
  mk "C" "Pro Widget (256)" (Some "wp-256")
  ∈ RetailerMatcher.handleVariantSelected (mk "A" "Widget Pro" (Some "WP-256"))
      [mk "A" "Widget Pro" (Some "WP-256"); mk "B" "Widget Pro 256GB" None;
       mk "C" "Pro Widget (256)" (Some "wp-256")] ↔
  mk "C" "Pro Widget (256)" (Some "wp-256")
  ∈ [mk "A" "Widget Pro" (Some "WP-256"); mk "B" "Widget Pro 256GB" None;
     mk "C" "Pro Widget (256)" (Some "wp-256")]
  ∧ hasModel (mk "C" "Pro Widget (256)" (Some "wp-256")) = true
  ∧ Js.toLowerCase (default "" (model (mk "C" "Pro Widget (256)" (Some "wp-256"))))
    = Js.toLowerCase (default "" (model (mk "A" "Widget Pro" (Some "WP-256"))))
  ∧ getProductIdentityKey (mk "C" "Pro Widget (256)" (Some "wp-256"))
    = getProductIdentityKey (mk "A" "Widget Pro" (Some "WP-256")).
Proof.
  apply (model_strategy_exact (mk "A" "Widget Pro" (Some "WP-256"))).
  - reflexivity.
  - exists (mk "C" "Pro Widget (256)" (Some "wp-256")). split; [|reflexivity].
    right. right. left.
Defined.

Lemma match_sublist (variant : RawListing) (allProducts : list RawListing) :
  RetailerMatcher.handleVariantSelected variant allProducts `sublist_of` allProducts.
Proof.
  unfold RetailerMatcher.handleVariantSelected.
  destruct (hasModel variant).
  - destruct (List.filter (RetailerMatcher.modelMatch variant) allProducts) eqn:E.
    + apply filter_sublist.
    + cbn [length Nat.eqb]. rewrite <- E. apply filter_sublist.
  - apply filter_sublist.
Qed.

(** X6. When the chosen variant is among the listings and has a model code
    or at least one key word in its name, the matcher's result contains it;
    and the result is always a subsequence of the listings given, in their
    order: nothing is invented. *)
Theorem chosen_is_matched (variant : RawListing) (allProducts : list RawListing) :
  variant ∈ allProducts →
  hasModel variant = true ∨ RetailerMatcher.extractKeyWords (name variant) ≠ ∅ →
  variant ∈ RetailerMatcher.handleVariantSelected variant allProducts
  ∧ RetailerMatcher.handleVariantSelected variant allProducts `sublist_of` allProducts.
Proof.
  intros Hin Hcase. split; [by apply match_contains_chosen|apply match_sublist].
Qed.

Lemma chosen_is_matched_witness :
  mk "B" "Widget Pro 256GB (Black)" None
  ∈ RetailerMatcher.handleVariantSelected (mk "B" "Widget Pro 256GB (Black)" None)
      [mk "A" "Widget Pro 256GB" None; mk "B" "Widget Pro 256GB (Black)" None;
       mk "C" "Widget 256GB" None]
  ∧ RetailerMatcher.handleVariantSelected (mk "B" "Widget Pro 256GB (Black)" None)
      [mk "A" "Widget Pro 256GB" None; mk "B" "Widget Pro 256GB (Black)" None;
       mk "C" "Widget 256GB" None]
    `sublist_of` [mk "A" "Widget Pro 256GB" None;
                  mk "B" "Widget Pro 256GB (Black)" None; mk "C" "Widget 256GB" None].
Proof.
  apply (chosen_is_matched (mk "B" "Widget Pro 256GB (Black)" None)).
  - right. left.
  - right. intros E. apply (f_equal size) in E. vm_compute in E. discriminate.
Defined.

(** * Further properties of the Price History Merger *)

Section MergerMore.

Implicit Types (lk : gmap string Q) (r : row) (rows : list row)
  (R : list string) (x d : string).

Lemma row_eq r1 r2 :
  date r1 = date r2 → (∀ x, cells r1 !! x = cells r2 !! x) → r1 = r2.
Proof.
  destruct r1 as [d1 c1], r2 as [d2 c2]. simpl. intros -> Hc.
  f_equal. by apply map_eq.
Qed.

Lemma orElse_absorb {A} (a b : option A) : orElse (orElse a b) b = orElse a b.
Proof. by destruct a, b. Qed.

(** The inner loop depends on the retailers as a set, and doing it twice
    is doing it once. *)
Lemma fillRow_ext R1 R2 lk r :
  (∀ x, x ∈ R1 ↔ x ∈ R2) →
  foldl fillCell (lk, r) R1 = foldl fillCell (lk, r) R2.
Proof.
  intros HR.
  assert (∀ x, bool_decide (x ∈ R1) = bool_decide (x ∈ R2)) as Hb.
  { intros x. apply bool_decide_ext, HR. }
  destruct (foldl fillCell (lk, r) R1) as [lk1 r1] eqn:E1,
           (foldl fillCell (lk, r) R2) as [lk2 r2] eqn:E2.
  f_equal.
  - apply map_eq. intros x.
    pose proof (fillRow_lastKnown R1 lk r x) as H1.
    pose proof (fillRow_lastKnown R2 lk r x) as H2.
    rewrite E1 in H1. rewrite E2 in H2. simpl in *. by rewrite H1, H2, Hb.
  - apply row_eq.
    + pose proof (fillRow_date R1 lk r) as H1. pose proof (fillRow_date R2 lk r) as H2.
      rewrite E1 in H1. rewrite E2 in H2. simpl in *. by rewrite H1, H2.
    + intros x. pose proof (fillRow_cell R1 lk r x) as H1.
      pose proof (fillRow_cell R2 lk r x) as H2.
      rewrite E1 in H1. rewrite E2 in H2. simpl in *. by rewrite H1, H2, Hb.
Qed.

Lemma fillForward_ext R1 R2 rows : ∀ lk,
  (∀ x, x ∈ R1 ↔ x ∈ R2) → fillForward R1 lk rows = fillForward R2 lk rows.
Proof.
  induction rows as [|r rows IH]; intros lk HR; [done|].
  cbn [fillForward]. rewrite (fillRow_ext R1 R2 lk r HR). by rewrite IH.
Qed.

Lemma fillRow_again R lk r :
  foldl fillCell (lk, (foldl fillCell (lk, r) R).2) R = foldl fillCell (lk, r) R.
Proof.
  destruct (foldl fillCell (lk, r) R) as [lk1 r1] eqn:E1. simpl.
  destruct (foldl fillCell (lk, r1) R) as [lk2 r2] eqn:E2.
  pose proof (fillRow_lookup R lk r) as H1. rewrite E1 in H1. simpl in H1.
  pose proof (fillRow_lookup R lk r1) as H2. rewrite E2 in H2. simpl in H2.
  pose proof (fillRow_date R lk r) as D1. rewrite E1 in D1. simpl in D1.
  pose proof (fillRow_date R lk r1) as D2. rewrite E2 in D2. simpl in D2.
  f_equal.
  - apply map_eq. intros x. destruct (H1 x) as [C1 L1], (H2 x) as [C2 L2].
    rewrite L2, L1, C1. case_bool_decide; [apply orElse_absorb|done].
  - apply row_eq; [done|]. intros x. destruct (H1 x) as [C1 L1], (H2 x) as [C2 L2].
    rewrite C2, C1. case_bool_decide; [apply orElse_absorb|done].
Qed.

Lemma fillForward_again R rows : ∀ lk,
  fillForward R lk (fillForward R lk rows) = fillForward R lk rows.
Proof.
  induction rows as [|r rows IH]; intros lk; [done|].
  cbn [fillForward]. rewrite fillRow_again. by rewrite IH.
Qed.

(** Histories of different retailers can be met in any order. *)
Lemma observed_swap (h1 h2 : string * list entry) (H : list (string * list entry)) x d :
  h1.1 ≠ h2.1 → observed (h1 :: h2 :: H) x d = observed (h2 :: h1 :: H) x d.
Proof.
  intros Hne. unfold observed. cbn [observations].
  rewrite !observedIn_app.
  set (A := observedIn ((λ e, (h1.1, dateOf (timestamp e), PriceHistory.price e)) <$> h1.2) x d).
  set (B := observedIn ((λ e, (h2.1, dateOf (timestamp e), PriceHistory.price e)) <$> h2.2) x d).
  assert (x ≠ h1.1 → A = None) as HA.
  { intros Hx. apply observedIn_other_retailer, Forall_fmap, Forall_forall.
    intros e _. simpl. congruence. }
  assert (x ≠ h2.1 → B = None) as HB.
  { intros Hx. apply observedIn_other_retailer, Forall_fmap, Forall_forall.
    intros e _. simpl. congruence. }
  destruct (decide (x = h1.1)) as [->|Hx1].
  - rewrite HB by done. by destruct (observedIn (observations H) _ d), A.
  - rewrite HA by done. by destruct (observedIn (observations H) x d), B.
Qed.

Lemma observed_cons (h : string * list entry) (H1 H2 : list (string * list entry)) x d :
  observed H1 x d = observed H2 x d → observed (h :: H1) x d = observed (h :: H2) x d.
Proof.
  unfold observed. cbn [observations]. rewrite !observedIn_app. by intros ->.
Qed.

Lemma observed_Permutation (H1 H2 : list (string * list entry)) :
  H1 ≡ₚ H2 → NoDup H1.*1 → ∀ x d, observed H1 x d = observed H2 x d.
Proof.
  induction 1 as [|h H1 H2 Hp IH|h1 h2 H|H1 H2 H3 Hp12 IH12 Hp23 IH23];
    intros Hnd x d.
  - done.
  - rewrite fmap_cons, NoDup_cons in Hnd. apply observed_cons, IH, Hnd.
  - rewrite !fmap_cons, !NoDup_cons, elem_of_cons in Hnd.
    destruct Hnd as [Hne _]. apply observed_swap. intros E. apply Hne. by left.
  - rewrite IH12 by done. apply IH23. by rewrite <- Hp12.
Qed.

Lemma before_app_free c s t :
  Js.occurs c s = false → Js.before c (s +:+ t) = s +:+ Js.before c t.
Proof.
  induction s as [|x s IH]; [done|]. rewrite occurs_cons, app_cons_string. simpl.
  intros [Hx Hs]%orb_false_iff. rewrite Ascii.eqb_sym, Hx. by rewrite IH.
Qed.

Lemma before_cut c s t : Js.occurs c s = false → Js.before c (s +:+ String c t) = s.
Proof.
  intros Hs. rewrite before_app_free by done. simpl.
  by rewrite Ascii.eqb_refl, string_app_nil_r.
Qed.

End MergerMore.

(** X7. Whatever the histories, the merged series has exactly one row per
    calendar date on which anything was observed, and its rows come in
    strictly ascending date order. *)
Theorem merge_one_row_per_date (allHistory : list (string * list entry)) :
  ascending (merge allHistory)
  ∧ NoDup (date <$> merge allHistory)
  ∧ ∀ d, d ∈ date <$> merge allHistory ↔ d ∈ observationDates allHistory.
Proof.
  split; [apply merge_ascending|]. split; [|apply merge_row_of_date].
  apply ascending_NoDup, merge_ascending.
Qed.

(** X8. Which cells the merged series has: in the row of a date, a retailer
    has a price exactly when it has an observation on that date or on an
    earlier one. *)
Theorem merged_cell_present_iff
    (allHistory : list (string * list entry)) (r : row) (retailer : string) :
  r ∈ merge allHistory →
  is_Some (cells r !! retailer)
  ↔ ∃ d', (d' = date r ∨ earlier d' (date r))
          ∧ is_Some (observed allHistory retailer d').
Proof.
  intros (pre & r0 & post & Hrows & Hdate & Hcells)%merge_row.
  pose proof (sorted_ascending _ (buildDateMap_keyed allHistory)) as Hasc.
  unfold ascending in Hasc. rewrite Hrows in Hasc.
  rewrite Hcells. split.
  - intros [p Hp].
    destruct (observed allHistory retailer (date r)) as [q|] eqn:Hobs.
    { exists (date r). split; [by left|]. by rewrite Hobs. }
    simpl in Hp. case_bool_decide as Hin; [|done].
    apply lastSeen_Some in Hp as (pre1 & rj & pre2 & -> & Hrj & _).
    assert (rj ∈ sorted (buildDateMap allHistory)) as Hrj_in.
    { rewrite Hrows. rewrite !elem_of_app, elem_of_cons. auto. }
    exists (date rj). split.
    + right. rewrite Hdate.
      eapply (StronglySorted_app_1_elem_of _ _ _ rj r0 Hasc);
        [rewrite elem_of_app, elem_of_cons; auto|left].
    + rewrite <- (table_cell allHistory rj retailer Hrj_in), Hrj. by eexists.
  - intros (d' & [->|Hearlier] & [q Hq]).
    { rewrite Hq. by eexists. }
    destruct (observed allHistory retailer (date r)) as [q'|]; [by eexists|].
    simpl. rewrite bool_decide_eq_true_2 by by eapply observed_retailer.
    destruct (lastSeen retailer None pre) as [p|] eqn:Hlast; [by eexists|].
    exfalso. apply lastSeen_None in Hlast. rewrite Forall_forall in Hlast.
    apply table_row_of_observation in Hq as (r' & Hr' & <- & Hc').
    rewrite Hrows in Hr'. apply elem_of_app in Hr' as [Hr'|Hr'].
    + rewrite (Hlast _ Hr') in Hc'. done.
    + rewrite Hdate in Hearlier.
      apply elem_of_cons in Hr' as [->|Hr']; [by apply earlier_irrefl in Hearlier|].
      apply StronglySorted_app_1_r, StronglySorted_cons in Hasc as [Hall _].
      rewrite Forall_forall in Hall. by apply (earlier_asym _ _ Hearlier), Hall.
Qed.

Lemma merged_cell_present_iff_witness :
  let r := {| date := "2024-01-02"; cells := {[ "A" := 100%Q; "B" := 90%Q ]} |} in
  is_Some (cells r !! "A")
  ↔ ∃ d', (d' = date r ∨ earlier d' (date r))
          ∧ is_Some (observed gappyHistory "A" d').
Proof.
  intros r. apply (merged_cell_present_iff gappyHistory r "A").
  apply list_elem_of_In. vm_compute. right. left. reflexivity.
Defined.

(** X9. Filling forward is idempotent: running the fill loop again over
    rows it has filled, from the same [lastKnown], changes nothing; so a
    second pass over the merged series returns the merged series. *)
Theorem fill_forward_idempotent
    (retailers : list string) (lastKnown : gmap string Q) (rows : list row) :
  fillForward retailers lastKnown (fillForward retailers lastKnown rows)
  = fillForward retailers lastKnown rows.
Proof. apply fillForward_again. Qed.

(** X10. The order of the products does not matter: when no retailer occurs
    twice, histories listed in another order merge to the same series. *)
Theorem merge_order_irrelevant (H1 H2 : list (string * list entry)) :
  H1 ≡ₚ H2 → NoDup H1.*1 → merge H1 = merge H2.
Proof.
  intros Hp Hnd. unfold merge.
  rewrite (buildDateMap_ext H1 H2) by by apply observed_Permutation.
  apply fillForward_ext. intros x. by rewrite Hp.
Qed.

Lemma merge_order_irrelevant_witness :
  merge [("B", [obs "2024-01-02T09:15:00" 90]);
         ("A", [obs "2024-01-01T10:00:00" 100; obs "2024-01-03 11:30:00" 110])]
  = merge gappyHistory.
Proof.
  symmetry.
  apply (merge_order_irrelevant gappyHistory
           [("B", [obs "2024-01-02T09:15:00" 90]);
            ("A", [obs "2024-01-01T10:00:00" 100; obs "2024-01-03 11:30:00" 110])]).
  - apply perm_swap.
  - apply (bool_decide_unpack _). by vm_compute.
Defined.

(** X11. The date key of an observation is its timestamp cut at the first
    [T] or space: a date text free of both comes back from an ISO timestamp
    ([dateTtime]) and from an SQL one ([date time]) alike, and is its own
    date key; observations of one day so land in one row. *)
Theorem dateOf_cuts_time (d t : string) :
  Js.occurs "T" d = false → Js.occurs " " d = false →
  dateOf (d +:+ String "T" t) = d
  ∧ dateOf (d +:+ String " " t) = d
  ∧ dateOf d = d.
Proof.
  intros HT Hsp. unfold dateOf. split; [|split].
  - rewrite before_cut by done. by apply before_id.
  - rewrite (before_app_free "T") by done.
    change (Js.before "T" (String " " t)) with (String " " (Js.before "T" t)).
    by apply before_cut.
  - rewrite (before_id "T") by done. by apply before_id.
Qed.

Lemma dateOf_cuts_time_witness :
  dateOf "2024-01-02T09:15:00" = "2024-01-02"
  ∧ dateOf "2024-01-02 09:15:00" = "2024-01-02"
  ∧ dateOf "2024-01-02" = "2024-01-02".
Proof.
  apply (dateOf_cuts_time "2024-01-02" "09:15:00"); reflexivity.
Defined.

(** * Retailer selection *)

Section Selection.

Implicit Types (prev : list nat) (index j : nat).

Lemma filter_id {A} (f : A → bool) (l : list A) :
  Forall (λ x, f x = true) l → List.filter f l = l.
Proof. induction 1 as [|x l Hx _ IH]; simpl; [done|]. by rewrite Hx, IH. Qed.

Lemma remove_absent prev index :
  index ∉ prev → List.filter (λ i, negb (i =? index)%nat) prev = prev.
Proof.
  intros Hn. apply filter_id, Forall_forall. intros i Hi.
  apply negb_true_iff, Nat.eqb_neq. by intros ->.
Qed.

Lemma remove_then_append prev index :
  NoDup prev → index ∈ prev →
  List.filter (λ i, negb (i =? index)%nat) prev ++ [index] ≡ₚ prev.
Proof.
  induction 1 as [|x l Hx Hnd IH]; [by intros ?%elem_of_nil|].
  intros Hin. simpl. destruct (Nat.eqb_spec x index) as [->|Hne]; simpl.
  - rewrite remove_absent by done. symmetry. apply Permutation_cons_append.
  - apply elem_of_cons in Hin as [->|Hin]; [done|]. by rewrite IH.
Qed.

End Selection.

(** X12. Toggling a position in the retailer selection flips that position
    and no other, keeps the selection free of duplicates, and toggling it
    twice gives back the same positions (the very same list when the
    position was not selected). *)
Theorem toggle_selection (prev : list nat) (index : nat) :
  NoDup prev →
  NoDup (toggleProductSelection prev index)
  ∧ (∀ j, j ∈ toggleProductSelection prev index
          ↔ (j = index ∧ index ∉ prev) ∨ (j ≠ index ∧ j ∈ prev))
  ∧ toggleProductSelection (toggleProductSelection prev index) index ≡ₚ prev
  ∧ (index ∉ prev →
     toggleProductSelection (toggleProductSelection prev index) index = prev).
Proof.
  intros Hnd.
  assert (∀ l, index ∈ l →
            toggleProductSelection l index
            = List.filter (λ i, negb (i =? index)%nat) l) as Hsel.
  { intros l Hl. unfold toggleProductSelection. by rewrite bool_decide_eq_true_2. }
  assert (∀ l, index ∉ l → toggleProductSelection l index = l ++ [index]) as Hunsel.
  { intros l Hl. unfold toggleProductSelection. by rewrite bool_decide_eq_false_2. }
  destruct (decide (index ∈ prev)) as [Hin|Hin].
  - assert (index ∉ List.filter (λ i, negb (i =? index)%nat) prev) as Hout.
    { rewrite filter_elem_of, negb_true_iff, Nat.eqb_neq. by intros [_ ?]. }
    rewrite (Hsel prev Hin), (Hunsel _ Hout).
    split; [eapply sublist_NoDup; [done|apply filter_sublist]|].
    split.
    { intros j. rewrite filter_elem_of, negb_true_iff, Nat.eqb_neq. split.
      - intros [? ?]. by right.
      - intros [[_ Hn]|[? ?]]; [by destruct Hn|by split]. }
    split; [by apply remove_then_append|done].
  - assert (index ∈ prev ++ [index]) as Hnow by (apply elem_of_app; right; left).
    rewrite (Hunsel prev Hin), (Hsel _ Hnow).
    assert (List.filter (λ i, negb (i =? index)%nat) (prev ++ [index]) = prev) as ->.
    { rewrite List.filter_app, remove_absent by done. simpl.
      by rewrite Nat.eqb_refl, app_nil_r. }
    split.
    { apply NoDup_app. split; [done|]. split; [|apply NoDup_singleton].
      intros x Hx ->%list_elem_of_singleton. done. }
    split; [|done].
    intros j. rewrite elem_of_app, list_elem_of_singleton. split.
    + intros [Hj| ->]; [right|by left]. split; [|done]. by intros ->.
    + intros [[-> _]|[_ ?]]; auto.
Qed.

Lemma toggle_selection_witness :
  NoDup (toggleProductSelection [0; 2; 3] 2)
  ∧ (∀ j, j ∈ toggleProductSelection [0; 2; 3] 2
          ↔ (j = 2 ∧ 2 ∉ [0; 2; 3]) ∨ (j ≠ 2 ∧ j ∈ [0; 2; 3]))
  ∧ toggleProductSelection (toggleProductSelection [0; 2; 3] 2) 2 ≡ₚ [0; 2; 3]
  ∧ (2 ∉ [0; 2; 3] →
     toggleProductSelection (toggleProductSelection [0; 2; 3] 2) 2 = [0; 2; 3]).
Proof.
  apply (toggle_selection [0; 2; 3] 2).
  apply (bool_decide_unpack _). by vm_compute.
Defined.

(** * Search progress *)

Section Progress.

Import SearchProgress.




End Progress.


(** * The backend log *)

Section Log.

Import Electron.

Implicit Types (logs msgs : list string) (msg : string).

Lemma lastN_length {A} (n : nat) (l : list A) : length (lastN n l) = Nat.min n (length l).
Proof. unfold lastN. rewrite length_drop. lia. Qed.

Lemma lastN_short {A} (n : nat) (l : list A) : (length l ≤ n)%nat → lastN n l = l.
Proof. intros Hl. unfold lastN. by replace (length l - n)%nat with 0%nat by lia. Qed.

Lemma lastN_snoc {A} (n : nat) (l : list A) (x : A) :
  (0 < n)%nat → lastN n (lastN n l ++ [x]) = lastN n (l ++ [x]).
Proof.
  intros Hn. destruct (decide (length l ≤ n)%nat) as [Hl|Hl].
  - by rewrite (lastN_short n l Hl).
  - unfold lastN at 1 3. rewrite !length_app, lastN_length. simpl.
    replace (Nat.min n (length l) + 1 - n)%nat with 1%nat by lia.
    replace (length l + 1 - n)%nat with ((length l - n) + 1)%nat by lia.
    rewrite <- drop_drop. f_equal. unfold lastN.
    by rewrite drop_app_le by lia.
Qed.

Lemma log_lastN logs msg :
  (length logs ≤ 50)%nat → log logs msg = lastN 50 (logs ++ [msg]).
Proof.
  intros Hl. unfold log. cbn zeta. rewrite length_app. simpl.
  destruct (Nat.ltb_spec 50 (length logs + 1)) as [Hgt|Hle].
  - unfold lastN. rewrite length_app. simpl.
    replace (length logs + 1 - 50)%nat with 1%nat by lia.
    by destruct logs.
  - rewrite lastN_short; [done|]. rewrite length_app. simpl. lia.
Qed.

Lemma log_all_lastN msgs : ∀ logs,
  (length logs ≤ 50)%nat → foldl log logs msgs = lastN 50 (logs ++ msgs).
Proof.
  induction msgs as [|msg msgs IH] using rev_ind; intros logs Hl.
  - simpl. by rewrite app_nil_r, lastN_short.
  - rewrite foldl_snoc, IH by done.
    rewrite log_lastN by (rewrite lastN_length; lia).
    rewrite lastN_snoc by lia. by rewrite app_assoc.
Qed.

Lemma log_length logs msg :
  (length logs ≤ 50)%nat → (length (log logs msg) ≤ 50)%nat.
Proof. intros Hl. rewrite log_lastN by done. rewrite lastN_length. lia. Qed.

(** The polling loop, from attempt [i] on. *)
Lemma waitFrom_true health maxRetries remaining : ∀ i logs,
  (waitFrom health maxRetries i remaining logs).1 = true
  ↔ ∃ j, (i ≤ j < i + remaining)%nat ∧ health j = true.
Proof.
  induction remaining as [|rem IH]; intros i logs; cbn [waitFrom].
  - split; [done|]. intros (j & ? & _). lia.
  - destruct (health i) eqn:Hi.
    + split; [|done]. intros _. exists i. split; [lia|done].
    + rewrite IH. split.
      * intros (j & ? & Hj). exists j. split; [lia|done].
      * intros (j & ? & Hj). exists j. split; [|done].
        destruct (decide (j = i)) as [->|]; [congruence|lia].
Qed.

Lemma waitFrom_length health maxRetries remaining : ∀ i logs,
  (length logs ≤ 50)%nat →
  (length (waitFrom health maxRetries i remaining logs).2 ≤ 50)%nat.
Proof.
  induction remaining as [|rem IH]; intros i logs Hl; cbn [waitFrom]; [done|].
  destruct (health i); [by apply log_length|]. by apply IH, log_length.
Qed.

Lemma waitFrom_first health maxRetries remaining : ∀ i k logs,
  (k < remaining)%nat → health (i + k)%nat = true →
  (∀ j, (j < k)%nat → health (i + j)%nat = false) →
  waitFrom health maxRetries i remaining logs
  = (true, foldl log logs
             (((λ j, waitingMessage (S j) maxRetries) <$> seq i k)
              ++ ["[Electron] Flask is ready"])).
Proof.
  induction remaining as [|rem IH]; intros i k logs Hk Hok Hbefore; [lia|].
  cbn [waitFrom]. destruct k as [|k].
  - rewrite Nat.add_0_r in Hok. by rewrite Hok.
  - pose proof (Hbefore 0%nat ltac:(lia)) as H0. rewrite Nat.add_0_r in H0.
    rewrite H0. rewrite (IH (S i) k); [done|lia|..].
    + by replace (S i + k)%nat with (i + S k)%nat by lia.
    + intros j Hj. replace (S i + j)%nat with (i + S j)%nat by lia.
      apply Hbefore. lia.
Qed.

Lemma waitFrom_never health maxRetries remaining : ∀ i logs,
  (∀ j, (j < remaining)%nat → health (i + j)%nat = false) →
  waitFrom health maxRetries i remaining logs
  = (false, foldl log logs
              ((λ j, waitingMessage (S j) maxRetries) <$> seq i remaining)).
Proof.
  induction remaining as [|rem IH]; intros i logs Hno; [done|].
  cbn [waitFrom].
  pose proof (Hno 0%nat ltac:(lia)) as H0. rewrite Nat.add_0_r in H0.
  rewrite H0. rewrite (IH (S i)); [done|].
  intros j Hj. replace (S i + j)%nat with (i + S j)%nat by lia. apply Hno. lia.
Qed.

End Log.

(** X14. The backend log is a window on the last 50 lines: starting from a
    buffer of at most 50 lines, after logging any number of messages the
    buffer holds exactly the last 50 of the old lines followed by the new
    ones, and so never has more than 50. *)
Theorem log_keeps_last_50 (backendLogs msgs : list string) :
  (length backendLogs ≤ 50)%nat →
  foldl Electron.log backendLogs msgs = lastN 50 (backendLogs ++ msgs)
  ∧ (length (foldl Electron.log backendLogs msgs) ≤ 50)%nat.
Proof.
  intros Hl. rewrite log_all_lastN by done. split; [done|].
  rewrite lastN_length. lia.
Qed.

Lemma log_keeps_last_50_witness :
  foldl Electron.log [] (replicate 49 "a" ++ ["b"; "c"; "d"])
  = lastN 50 ([] ++ replicate 49 "a" ++ ["b"; "c"; "d"])
  ∧ (length (foldl Electron.log [] (replicate 49 "a" ++ ["b"; "c"; "d"])) ≤ 50)%nat.
Proof.
  apply (log_keeps_last_50 [] (replicate 49 "a" ++ ["b"; "c"; "d"])).
  simpl. lia.
Defined.

(** X15. Waiting for the backend: [waitForFlask] answers true exactly when
    one of the first [maxRetries] health checks is ok.  It stops at the
    first ok check, having logged one waiting line per failed check before
    it and then the ready line; when no check is ok it logs [maxRetries]
    waiting lines.  The log stays within 50 lines throughout. *)
Theorem waitForFlask_result
    (health : nat → bool) (maxRetries : nat) (backendLogs : list string) :
  ((Electron.waitForFlask health maxRetries backendLogs).1 = true
   ↔ ∃ i, (i < maxRetries)%nat ∧ health i = true)
  ∧ (∀ k, (k < maxRetries)%nat → health k = true →
          (∀ j, (j < k)%nat → health j = false) →
          Electron.waitForFlask health maxRetries backendLogs
          = (true, foldl Electron.log backendLogs
                     (((λ j, Electron.waitingMessage (S j) maxRetries) <$> seq 0 k)
                      ++ ["[Electron] Flask is ready"])))
  ∧ ((∀ j, (j < maxRetries)%nat → health j = false) →
     Electron.waitForFlask health maxRetries backendLogs
     = (false, foldl Electron.log backendLogs
                 ((λ j, Electron.waitingMessage (S j) maxRetries) <$> seq 0 maxRetries)))
  ∧ ((length backendLogs ≤ 50)%nat →
     (length (Electron.waitForFlask health maxRetries backendLogs).2 ≤ 50)%nat).
Proof.
  unfold Electron.waitForFlask. split; [|split; [|split]].
  - rewrite waitFrom_true. split; intros (j & ? & ?); exists j; (split; [lia|done]).
  - intros k Hk Hok Hbefore. by apply waitFrom_first.
  - intros Hno. by apply waitFrom_never.
  - apply waitFrom_length.
Qed.

(** * The product filter *)

Section TrackerFilter.

Import Tracker.

Lemma startsWithStr_spec needle s :
  startsWithStr needle s = true ↔ ∃ rest, s = needle +:+ rest.
Proof.
  revert s. induction needle as [|a needle IH]; intros s; simpl.
  - split; [|done]. intros _. by exists s.
  - destruct s as [|b s].
    + split; [done|]. intros [rest Hr]. by rewrite app_cons_string in Hr.
    + rewrite andb_true_iff, IH. split.
      * intros [->%Ascii.eqb_eq [rest ->]]. by exists rest.
      * intros [rest Hr]. rewrite app_cons_string in Hr. injection Hr as -> ->.
        split; [apply Ascii.eqb_refl|by exists rest].
Qed.

Lemma includesStr_spec s needle :
  includesStr s needle = true ↔ ∃ a b, s = a +:+ needle +:+ b.
Proof.
  induction s as [|c s IH]; simpl.
  - rewrite orb_false_r, startsWithStr_spec. split.
    + intros [rest Hr]. by exists "", rest.
    + intros (a & b & Hab). destruct a; [by exists b|done].
  - rewrite orb_true_iff, startsWithStr_spec, IH. split.
    + intros [[rest Hr]|(a & b & ->)]; [by exists "", rest|by exists (String c a), b].
    + intros (a & b & Hab). destruct a as [|x a].
      * left. by exists b.
      * right. rewrite app_cons_string in Hab. injection Hab as -> ->. by exists a, b.
Qed.

End TrackerFilter.

(** X16. The product filter keeps a product exactly when its category is the
    chosen one (or the choice is [All]) and its name contains the query
    somewhere, letter case aside; it keeps the order of the list, keeps
    everything for [All] and the empty query, and filtering its own result
    again changes nothing. *)
Theorem filterProducts_spec {product : Type} (name category : product → string)
    (productList : list product) (category' query : string) :
  (∀ p, p ∈ Tracker.filterProducts name category productList category' query
        ↔ p ∈ productList
          ∧ (category' = "All" ∨ category p = category')
          ∧ ∃ a b, Js.toLowerCase (name p) = a +:+ Js.toLowerCase query +:+ b)
  ∧ Tracker.filterProducts name category productList category' query
      `sublist_of` productList
  ∧ Tracker.filterProducts name category productList "All" "" = productList
  ∧ Tracker.filterProducts name category
      (Tracker.filterProducts name category productList category' query)
      category' query
    = Tracker.filterProducts name category productList category' query.
Proof.
  unfold Tracker.filterProducts. split; [|split; [|split]].
  - intros p. rewrite filter_elem_of. unfold Tracker.matches.
    rewrite andb_true_iff, orb_true_iff, includesStr_spec, !String.eqb_eq.
    tauto.
  - apply filter_sublist.
  - apply filter_id, Forall_forall. intros p _. unfold Tracker.matches. simpl.
    apply includesStr_spec. by exists "", (Js.toLowerCase (name p)).
  - apply filter_id, filter_true_Forall.
Qed.

(** X19. The product list of the comparison view shows a product exactly
    when its category is the selected one (or [All] is selected) and it
    has a name that contains the search text, letter case aside; a product
    without name is never shown, and with [All] and an empty search the
    list is the named products, in order. *)
Theorem filteredProducts_spec {product : Type} (name category : product → option string)
    (products : list product) (selectedCategory searchQuery : string) :
  (∀ p, p ∈ filteredProducts name category products selectedCategory searchQuery
        ↔ p ∈ products
          ∧ (selectedCategory = "All" ∨ category p = Some selectedCategory)
          ∧ ∃ n a b, name p = Some n
                     ∧ Js.toLowerCase n = a +:+ Js.toLowerCase searchQuery +:+ b)
  ∧ filteredProducts name category products selectedCategory searchQuery
      `sublist_of` products
  ∧ filteredProducts name category products "All" ""
    = List.filter (λ p, bool_decide (is_Some (name p))) products.
Proof.
  unfold filteredProducts. split; [|split].
  - intros p. rewrite filter_elem_of. unfold matchesProduct.
    rewrite andb_true_iff, orb_true_iff, String.eqb_eq, bool_decide_eq_true.
    destruct (name p) as [n|].
    + rewrite includesStr_spec. split.
      * intros (? & ? & a & b & ?). split; [done|]. split; [done|]. by exists n, a, b.
      * intros (? & ? & n' & a & b & [= <-] & ?). split; [done|]. split; [done|].
        by exists a, b.
    + split; [by intros (_ & _ & ?)|]. by intros (_ & _ & n & a & b & ? & _).
  - apply filter_sublist.
  - apply filter_ext_in, Forall_forall. intros p _. unfold matchesProduct. simpl.
    destruct (name p) as [n|].
    + rewrite bool_decide_eq_true_2 by by eexists.
      apply includesStr_spec. by exists "", (Js.toLowerCase n).
    + symmetry. apply bool_decide_eq_false_2. by intros [? ?].
Qed.

(** * Reading the parts back from a key *)

Section KeyInjective.

Implicit Types (c : ascii) (s w : string) (p q : RawListing).

Lemma occurs_false_plain c w :
  Js.occurs c w = false → allIn (λ x, negb (Ascii.eqb x c)) w = true.
Proof.
  unfold allIn. induction w as [|x w IH]; [done|]. rewrite occurs_cons. simpl.
  intros [Hx Hw]%orb_false_iff. rewrite Ascii.eqb_sym, Hx. by rewrite IH.
Qed.

(** The fields of a split hold no class character. *)
Lemma split_fields_free cls s :
  Forall (λ w, allIn (λ x, negb (cls x)) w = true) (Js.split cls s).
Proof.
  unfold allIn. induction s as [|c s IH]; simpl.
  - by repeat constructor.
  - destruct (cls c) eqn:Hc.
    + destruct (Js.startsWith cls s); [done|by constructor].
    + destruct (Js.split cls s) as [|w ws]; [by repeat constructor; simpl; rewrite Hc|].
      inversion IH; subst. constructor; [|done]. simpl. by rewrite Hc.
Qed.

Lemma hyphen_separates c :
  negb (isNameSeparator c) = true → negb (Ascii.eqb c "-") = true.
Proof. by destruct c as [[] [] [] [] [] [] [] []]. Qed.

Lemma nameWords_plain p w :
  w ∈ nameWords p → w ≠ "" → plainWord (λ x, Ascii.eqb x "-") w.
Proof.
  intros Hw Hne. split; [done|].
  pose proof (split_fields_free isNameSeparator (Js.toLowerCase (name p))) as Hall.
  rewrite Forall_forall in Hall. eapply allIn_impl; [apply hyphen_separates|].
  by apply Hall.
Qed.

Lemma isCoreWord_nonempty w : isCoreWord w = true → w ≠ "".
Proof. by intros H ->. Qed.

Lemma coreWords_facts p w :
  w ∈ take 4 (List.filter isCoreWord (nameWords p)) →
  plainWord (λ x, Ascii.eqb x "-") w ∧ isCoreWord w = true.
Proof.
  intros Hw. eapply elem_of_sublist in Hw; [|apply sublist_take].
  apply filter_elem_of in Hw as [Hw Hcore]. split; [|done].
  eapply nameWords_plain; [done|]. by apply isCoreWord_nonempty.
Qed.

Lemma tier_word_letter w :
  Js.includes TIER_WORDS w = true → w ≠ "" ∧ Js.startsWith Js.isDigit w = false.
Proof.
  unfold Js.includes. intros Hw%bool_decide_eq_true. unfold TIER_WORDS in Hw.
  repeat (apply elem_of_cons in Hw as [->|Hw]; [done|]).
  by apply elem_of_nil in Hw.
Qed.

Lemma tierWords_facts p w :
  w ∈ Js.sort (tierWords p) →
  plainWord (λ x, Ascii.eqb x "-") w ∧ Js.includes TIER_WORDS w = true.
Proof.
  unfold Js.sort. rewrite (merge_sort_Permutation String.le).
  unfold tierWords. intros [Hw Htier]%filter_elem_of. split; [|done].
  eapply nameWords_plain; [done|]. by apply tier_word_letter.
Qed.

Lemma span_allIn_all cls s : allIn cls s = true → Js.span cls s = (s, "").
Proof.
  unfold allIn. induction s as [|c s IH]; [done|]. simpl.
  intros [-> Hs]%andb_true_iff. by rewrite (IH Hs).
Qed.

Lemma digit_not_hyphen c : Js.isDigit c = true → negb (Ascii.eqb c "-") = true.
Proof. by destruct c as [[] [] [] [] [] [] [] []]. Qed.


Lemma storageKind_word x :
  storageKind x →
  plainWord (λ x, Ascii.eqb x "-") x ∧ isStorageWord x = true
  ∧ Js.startsWith Js.isDigit x = true.
Proof.
  intros (ds & Hne & Hds & Hx).
  assert (∀ u, u = "gb" ∨ u = "tb" →
            plainWord (λ x, Ascii.eqb x "-") (ds +:+ u)
            ∧ isStorageWord (ds +:+ u) = true
            ∧ Js.startsWith Js.isDigit (ds +:+ u) = true) as Hu.
  { intros u Hu. split; [|split].
    - split; [by destruct ds|]. rewrite allIn_app.
      rewrite (allIn_impl _ _ ds digit_not_hyphen Hds). by destruct Hu as [-> | ->].
    - unfold isStorageWord.
      rewrite (span_app_all Js.isDigit ds u) by by rewrite span_allIn_all.
      destruct Hu as [-> | ->]; simpl; rewrite string_app_nil_r; by destruct ds.
    - destruct ds as [|c ds]; [done|]. unfold allIn in Hds. simpl in *.
      by apply andb_true_iff in Hds as [-> _]. }
  destruct Hx as [-> | ->]; apply Hu; auto.
Qed.

Lemma join_single (x : string) : Js.join "-" [x] = x.
Proof. reflexivity. Qed.

Lemma core_not_tier x : coreKind x → tierKind x → False.
Proof.
  intros (cs & Hcs & -> & Hc) (ts & Hts & E & Ht).
  apply (join_inj (λ x, Ascii.eqb x "-") "-") in E; [|done|..].
  - subst ts. destruct cs as [|w cs]; [done|].
    inversion Hc as [|? ? [_ Hcore] _]; inversion Ht as [|? ? [_ Htier] _]; subst.
    unfold isCoreWord in Hcore. rewrite Htier in Hcore.
    by rewrite !andb_false_r in Hcore.
  - eapply Forall_impl; [exact Hc|]. by intros w [? _].
  - eapply Forall_impl; [exact Ht|]. by intros w [? _].
Qed.

Lemma core_not_storage x : coreKind x → storageKind x → False.
Proof.
  intros (cs & Hcs & -> & Hc) Hs.
  destruct (storageKind_word _ Hs) as (Hplain & Hword & _).
  assert (cs = [Js.join "-" cs]) as E.
  { apply (join_inj (λ x, Ascii.eqb x "-") "-");
      [done| |constructor; [exact Hplain|constructor]|done].
    eapply Forall_impl; [exact Hc|]. by intros w [? _]. }
  rewrite E in Hc.
  inversion Hc as [|? ? [_ Hcore] _]; subst.
  unfold isCoreWord in Hcore. rewrite Hword in Hcore.
  by rewrite !andb_false_r in Hcore.
Qed.

Lemma tier_not_storage x : tierKind x → storageKind x → False.
Proof.
  intros (ts & Hts & -> & Ht) Hs.
  destruct (storageKind_word _ Hs) as (Hplain & _ & Hdigit).
  assert (ts = [Js.join "-" ts]) as E.
  { apply (join_inj (λ x, Ascii.eqb x "-") "-");
      [done| |constructor; [exact Hplain|constructor]|done].
    eapply Forall_impl; [exact Ht|]. by intros w [? _]. }
  rewrite E in Ht. inversion Ht as [|? ? [_ Htier] _]; subst.
  apply tier_word_letter in Htier as [_ Hletter]. congruence.
Qed.

Lemma join_nonempty (ws : list string) : Js.join "-" ws ≠ "" → ws ≠ [].
Proof. by intros H ->. Qed.

Lemma corePart_kind p : corePart p ≠ "" → coreKind (corePart p).
Proof.
  intros Hne. eexists. split; [by apply join_nonempty|]. split; [done|].
  apply Forall_forall. apply coreWords_facts.
Qed.

Lemma tierPart_kind p : tierPart p ≠ "" → tierKind (tierPart p).
Proof.
  intros Hne. eexists. split; [by apply join_nonempty|]. split; [done|].
  apply Forall_forall. apply tierWords_facts.
Qed.

(** Three parts of pairwise different kinds are read back from the list of
    the non-empty ones. *)
Lemma parts_from_list (K1 K2 K3 : string → Prop) (a1 a2 a3 b1 b2 b3 : string) :
  (∀ x, K1 x → K2 x → False) → (∀ x, K1 x → K3 x → False) →
  (∀ x, K2 x → K3 x → False) →
  (a1 ≠ "" → K1 a1) → (a2 ≠ "" → K2 a2) → (a3 ≠ "" → K3 a3) →
  (b1 ≠ "" → K1 b1) → (b2 ≠ "" → K2 b2) → (b3 ≠ "" → K3 b3) →
  List.filter Js.truthy [a1; a2; a3] = List.filter Js.truthy [b1; b2; b3] →
  a1 = b1 ∧ a2 = b2 ∧ a3 = b3.
Proof.
  intros H12 H13 H23 Ha1 Ha2 Ha3 Hb1 Hb2 Hb3.
  assert (∀ x : string, x ≠ "" → Js.truthy x = true) as Ht by by intros [|].
  destruct (decide (a1 = "")) as [->|N1], (decide (a2 = "")) as [->|N2],
           (decide (a3 = "")) as [->|N3], (decide (b1 = "")) as [->|M1],
           (decide (b2 = "")) as [->|M2], (decide (b3 = "")) as [->|M3];
    simpl; rewrite ?Ht by done; intros E; simplify_eq; try done;
    exfalso; naive_solver.
Qed.


Lemma key_parts_plain p :
  Js.occurs "|" (name p) = false →
  Forall (plainWord (λ x, Ascii.eqb x "|"))
    (List.filter Js.truthy [corePart p; tierPart p; storagePart p]).
Proof.
  intros Hn. apply Forall_forall. intros x [Hx Ht]%filter_elem_of.
  split; [by destruct x|]. apply occurs_false_plain.
  repeat (apply elem_of_cons in Hx as [->|Hx]);
    [by apply corePart_no_bar|apply tierPart_no_bar|apply storagePart_no_bar|].
  by apply elem_of_nil in Hx.
Qed.

End KeyInjective.

(** X17. The identity key tells its parts apart: two listings without model
    code whose names hold no bar have the same key only if they agree on
    the core part, on the tier part and on the storage part; in particular
    they then have the same tier words (each as often), so a Pro listing
    never shares a key with a non-Pro one, nor 256GB with 512GB. *)
Theorem equal_keys_equal_parts (p q : RawListing) :
  hasModel p = false → hasModel q = false →
  Js.occurs "|" (name p) = false → Js.occurs "|" (name q) = false →
  getProductIdentityKey p = getProductIdentityKey q →
  corePart p = corePart q ∧ tierPart p = tierPart q
  ∧ storagePart p = storagePart q ∧ tierWords p ≡ₚ tierWords q.
Proof.
  intros Hp Hq Hbp Hbq. unfold getProductIdentityKey. rewrite Hp, Hq.
  intros E%(join_inj (λ x, Ascii.eqb x "|") "|");
    [|done|by apply key_parts_plain..].
  apply (parts_from_list coreKind tierKind storageKind) in E as (Ec & Et & Es);
    [|apply core_not_tier|apply core_not_storage|apply tier_not_storage
     |apply corePart_kind|apply tierPart_kind|apply storagePart_kind
     |apply corePart_kind|apply tierPart_kind|apply storagePart_kind].
  do 3 (split; [done|]).
  unfold tierPart in Et.
  apply (join_inj (λ x, Ascii.eqb x "-") "-") in Et; [|done|..].
  - unfold Js.sort in Et.
    rewrite <- (merge_sort_Permutation String.le (tierWords p)), Et.
    apply merge_sort_Permutation.
  - apply Forall_forall. intros w Hw. by apply (tierWords_facts p).
  - apply Forall_forall. intros w Hw. by apply (tierWords_facts q).
Qed.

Lemma equal_keys_equal_parts_witness :
  corePart (mk "A" "Apple iPhone 17 Pro Max 256GB" None)
  = corePart (mk "B" "apple iphone 17 max pro 256gb" None)
  ∧ tierPart (mk "A" "Apple iPhone 17 Pro Max 256GB" None)
    = tierPart (mk "B" "apple iphone 17 max pro 256gb" None)
  ∧ storagePart (mk "A" "Apple iPhone 17 Pro Max 256GB" None)
    = storagePart (mk "B" "apple iphone 17 max pro 256gb" None)
  ∧ tierWords (mk "A" "Apple iPhone 17 Pro Max 256GB" None)
    ≡ₚ tierWords (mk "B" "apple iphone 17 max pro 256gb" None).
Proof.
  apply (equal_keys_equal_parts (mk "A" "Apple iPhone 17 Pro Max 256GB" None)
           (mk "B" "apple iphone 17 max pro 256gb" None)); reflexivity.
Defined.

Section Remerge.

Implicit Types (r : row) (rows : list row) (R : list string) (x d : string).

(** Two strictly ascending lists with the same rows are the same list. *)
Lemma ascending_ext rows1 : ∀ rows2,
  ascending rows1 → ascending rows2 → (∀ r, r ∈ rows1 ↔ r ∈ rows2) →
  rows1 = rows2.
Proof.
  unfold ascending.
  induction rows1 as [|r1 rows1 IH]; intros [|r2 rows2] H1 H2 Hmem.
  - done.
  - exfalso. eapply not_elem_of_nil, Hmem. left.
  - exfalso. eapply not_elem_of_nil, Hmem. left.
  - apply StronglySorted_cons in H1 as [Hall1 H1], H2 as [Hall2 H2].
    rewrite Forall_forall in Hall1, Hall2.
    assert (r1 = r2) as ->.
    { pose proof (proj1 (Hmem r1) ltac:(left)) as [->|Hin1]%elem_of_cons; [done|].
      pose proof (proj2 (Hmem r2) ltac:(left)) as [->|Hin2]%elem_of_cons; [done|].
      destruct (earlier_asym _ _ (Hall1 _ Hin2) (Hall2 _ Hin1)). }
    f_equal. apply IH; [done..|]. intros r. split.
    + intros Hr. pose proof (proj1 (Hmem r) ltac:(by right)) as [->|?]%elem_of_cons; [|done].
      by destruct (earlier_irrefl _ (Hall1 _ Hr)).
    + intros Hr. pose proof (proj2 (Hmem r) ltac:(by right)) as [->|?]%elem_of_cons; [|done].
      by destruct (earlier_irrefl _ (Hall2 _ Hr)).
Qed.

(** A merged row has cells for listed retailers only, and at least one. *)
Lemma merged_cell_retailer (H : list (string * list entry)) r x :
  r ∈ merge H → is_Some (cells r !! x) → x ∈ H.*1.
Proof.
  intros (pre & r0 & post & _ & _ & Hcells)%merge_row. rewrite Hcells.
  destruct (observed H x (date r)) eqn:E; [intros _; by eapply observed_retailer|].
  simpl. case_bool_decide; [done|]. by intros [? ?].
Qed.

Lemma merged_row_inhabited (H : list (string * list entry)) r :
  r ∈ merge H → ∃ x, x ∈ H.*1 ∧ is_Some (cells r !! x).
Proof.
  intros Hr. pose proof Hr as (pre & r0 & post & _ & _ & Hcells)%merge_row.
  assert (date r ∈ observationDates H) as Hd.
  { apply merge_row_of_date. by apply list_elem_of_fmap_2. }
  apply list_elem_of_fmap in Hd as ([[x d'] p] & Hdate & Hin). simpl in Hdate. subst d'.
  assert (is_Some (observed H x (date r))) as [q Hq].
  { apply observedIn_is_Some. by exists p. }
  exists x. split; [by eapply observed_retailer|].
  rewrite Hcells, Hq. by eexists.
Qed.

Lemma merge_dateOf (H : list (string * list entry)) :
  Forall (λ r, dateOf (date r) = date r) (merge H).
Proof.
  apply Forall_forall. intros r Hr.
  apply (observationDates_dateOf H), merge_row_of_date. by apply list_elem_of_fmap_2.
Qed.

(** What the merged rows, read back, say was observed. *)
Lemma remerge_observed (H : list (string * list entry)) r x :
  r ∈ merge H →
  observed (historiesOf H.*1 (merge H)) x (date r) = cells r !! x.
Proof.
  intros Hr. rewrite historiesOf_observed. case_bool_decide as Hx.
  - apply historyOf_cell; [apply merge_dateOf| |done].
    apply ascending_NoDup, merge_ascending.
  - destruct (cells r !! x) eqn:E; [|done].
    destruct Hx. eapply merged_cell_retailer; [done|]. by rewrite E.
Qed.

Lemma remerge_observed_date (H : list (string * list entry)) x d :
  is_Some (observed (historiesOf H.*1 (merge H)) x d) → d ∈ date <$> merge H.
Proof.
  rewrite historiesOf_observed. case_bool_decide as Hx; [|by intros [? ?]].
  destruct (decide (d ∈ date <$> merge H)) as [|Hd]; [done|].
  rewrite historyOf_missing; [by intros [? ?]|apply merge_dateOf|done].
Qed.

Lemma remerge_table (H : list (string * list entry)) :
  sorted (buildDateMap (historiesOf H.*1 (merge H))) = merge H.
Proof.
  pose proof (buildDateMap_keyed (historiesOf H.*1 (merge H))) as Hk.
  apply ascending_ext; [by apply sorted_ascending|apply merge_ascending|].
  intros r. rewrite sorted_elem_of by done. split.
  - intros Hr.
    assert (date r ∈ date <$> merge H) as Hd.
    { assert (date r ∈ observationDates (historiesOf H.*1 (merge H))) as Hd.
      { apply table_row_of_date. exists r. split; [|done]. by apply sorted_elem_of. }
      apply list_elem_of_fmap in Hd as ([[x d'] p] & Hdate & Hin). simpl in Hdate.
      apply (remerge_observed_date H x). apply observedIn_is_Some.
      exists p. by rewrite Hdate. }
    apply list_elem_of_fmap in Hd as (r' & Hdate & Hr').
    assert (r = r') as ->; [|done].
    apply row_eq; [done|]. intros x.
    rewrite <- (remerge_observed H r' x Hr'), <- Hdate.
    rewrite <- buildDateMap_cellAt. unfold cellAt. by rewrite Hr.
  - intros Hr. destruct (merged_row_inhabited H r Hr) as (x & _ & [p Hp]).
    assert (is_Some (buildDateMap (historiesOf H.*1 (merge H)) !! date r)) as [r' Hr'].
    { apply elem_of_dom. rewrite buildDateMap_place. apply dom_place. left.
      fold (observationDates (historiesOf H.*1 (merge H))).
      eapply observed_date. rewrite (remerge_observed H r x Hr). exact Hp. }
    rewrite Hr'. f_equal. apply row_eq; [by apply Hk|]. intros y.
    rewrite <- (remerge_observed H r y Hr).
    rewrite <- buildDateMap_cellAt. unfold cellAt. by rewrite Hr'.
Qed.

End Remerge.

(** X18. Merging is idempotent, gaps or no gaps: the merged series, read
    back as one history per retailer (an entry per row in which the
    retailer has a price) and merged again, comes out unchanged. *)
Theorem merge_idempotent (allHistory : list (string * list entry)) :
  merge (historiesOf allHistory.*1 (merge allHistory)) = merge allHistory.
Proof.
  unfold merge at 1. rewrite historiesOf_retailers, remerge_table.
  unfold merge. apply fillForward_again.
Qed.
